(** * bfhl-api: a shallow embedding of [index.js]

    The service is one Express application: a fixed-window rate limiter
    keyed by client address, four numeric kernels (Fibonacci, primality,
    gcd, lcm), a text sanitizer for AI answers, and the [POST /bfhl]
    dispatcher.  Each JavaScript function is transcribed below under its
    own name; the theorems at the end of the file are stated on these
    transcriptions. *)

From Stdlib Require Import ZArith Lia List Bool Permutation.
From Stdlib Require Import Ascii String.
From stdpp Require Import gmap list strings pretty.
From Equations Require Import Equations.
Import ListNotations.

Local Open Scope Z_scope.

(** ** JavaScript numbers

    Every number of the program is an IEEE-754 double.  The program only
    ever combines integer-valued doubles, so a number is modelled by the
    integer it denotes and the rounding of the arithmetic operators is
    written out: the exact integer result is rounded to 53 significant
    bits, to nearest, ties to the even significand.  Results of magnitude
    2^1024 and above (Infinity) are outside the model; no theorem below
    evaluates the program there. *)

Module JSNum.

(** Rounding of a non-negative integer to a 53-bit significand. *)
Definition rnd53 (n : Z) : Z :=
  if n <? 2 ^ 53 then n
  else
    let e := Z.log2 n - 52 in
    let q := n / 2 ^ e in
    let r := n mod 2 ^ e in
    let h := 2 ^ (e - 1) in
    if (h <? r) || ((r =? h) && Z.odd q) then (q + 1) * 2 ^ e
    else q * 2 ^ e.

Definition round53 (z : Z) : Z := Z.sgn z * rnd53 (Z.abs z).

(** [a + b], [a - b], [a * b] on integer-valued doubles. *)
Definition add (a b : Z) : Z := round53 (a + b).
Definition sub (a b : Z) : Z := round53 (a - b).
Definition mul (a b : Z) : Z := round53 (a * b).

(** [a / g] where [g] divides [a]: the quotient is an integer. *)
Definition div (a g : Z) : Z := round53 (Z.quot a g).

(** [a % b]: the remainder takes the sign of the dividend and is
    always exact. *)
Definition rem (a b : Z) : Z := Z.rem a b.

(** [Math.abs]. *)
Definition abs (a : Z) : Z := Z.abs a.

(** The integers a double holds exactly. *)
Definition representable (z : Z) : Prop := round53 z = z.

(** [Math.floor(Math.sqrt(x))] for [x > 0].  [Math.sqrt] is the
    correctly rounded square root: with [2^k <= sqrt x < 2^(k+1)] and
    [d = k - 52], the significand is [m = floor (sqrt x / 2^d)], rounded
    up when [sqrt x] lies above [(m + 1/2) * 2^d] (or on it, [m] odd).
    The rounded value [m' * 2^d] is then floored. *)
Definition floor_sqrt (x : Z) : Z :=
  let k := Z.log2 (Z.sqrt x) in
  if k <=? 52 then
    let j := 52 - k in
    let m := Z.sqrt (x * 4 ^ j) in
    let m' := if (2 * m + 1) ^ 2 <? 4 * (x * 4 ^ j) then m + 1 else m in
    m' / 2 ^ j
  else
    let d := k - 52 in
    let m := Z.sqrt (x / 4 ^ d) in
    let half := (2 * m + 1) ^ 2 * 4 ^ (d - 1) in
    let m' := if (half <? x) || ((half =? x) && Z.odd m) then m + 1
              else m in
    m' * 2 ^ d.

End JSNum.

(** ** Numeric kernels *)

(** [res[i]] for an index inside the array. *)
Definition at_index (res : list Z) (i : Z) : Z := nth (Z.to_nat i) res 0.

(** The [while (res.length < n)] loop of [fibSeries]; [None] when the
    fuel runs out before the loop condition turns false. *)
Fixpoint fib_while (fuel : nat) (n : Z) (res : list Z) : option (list Z) :=
  if Z.of_nat (length res) <? n then
    match fuel with
    | O => None
    | S fuel' =>
        let l := Z.of_nat (length res) in
        fib_while fuel' n
          (res ++ [JSNum.add (at_index res (l - 1)) (at_index res (l - 2))])
    end
  else Some res.

Definition fibSeries (n : Z) : option (list Z) :=
  if n <=? 0 then Some []
  else if n =? 1 then Some [0]
  else fib_while (Z.to_nat n) n [0; 1].

(** The [for (let i = 3; i <= r; i += 2)] loop of [isPrimeNum]. *)
Fixpoint trial_loop (fuel : nat) (x r i : Z) : option bool :=
  if i <=? r then
    match fuel with
    | O => None
    | S fuel' =>
        if JSNum.rem x i =? 0 then Some false
        else trial_loop fuel' x r (JSNum.add i 2)
    end
  else Some true.

Definition isPrimeNum (x : Z) : option bool :=
  if x <=? 1 then Some false
  else if x <=? 3 then Some true
  else if JSNum.rem x 2 =? 0 then Some false
  else
    let r := JSNum.floor_sqrt x in
    trial_loop (Z.to_nat r) x r 3.

(** [gcd]: the recursion is on the absolute value of the second
    argument, which the remainder makes strictly smaller. *)
Equations? gcd (a b : Z) : Z by wf (Z.to_nat (Z.abs b)) lt :=
  gcd a b with Z.eq_dec (JSNum.abs b) 0 => {
    | left _ => JSNum.abs a
    | right _ => gcd (JSNum.abs b) (JSNum.rem (JSNum.abs a) (JSNum.abs b)) }.
Proof.
  unfold JSNum.rem, JSNum.abs in *.
  pose proof (Z.rem_bound_pos (Z.abs a) (Z.abs b)); lia.
Qed.

(** [arr.reduce(f)] without an initial value: a [TypeError] ([None]) on
    the empty array, the first element as the initial accumulator
    otherwise. *)
Definition reduce1 {A : Type} (f : A -> A -> A) (arr : list A) : option A :=
  match arr with
  | [] => None
  | x :: xs => Some (fold_left f xs x)
  end.

Definition gcdArray (arr : list Z) : option Z :=
  reduce1 (fun acc v => gcd acc v) arr.

Definition lcm2 (a b : Z) : Z :=
  if (a =? 0) || (b =? 0) then 0
  else JSNum.abs (JSNum.mul (JSNum.div a (gcd a b)) b).

Definition lcmArray (arr : list Z) : option Z :=
  reduce1 (fun acc v => lcm2 acc v) arr.

(** ** Strings and JSON values

    A JavaScript string is a sequence of UTF-16 code units. *)

Definition jsstring : Type := list N.

(** The code units of an ASCII literal. *)
Definition js (s : string) : jsstring :=
  map N_of_ascii (list_ascii_of_string s).

Definition str_eqb (a b : jsstring) : bool := bool_decide (a = b).

(** A Number as the handlers see it: they only ask [Number.isInteger],
    and read the value when the answer is yes. *)
Inductive JSNumber : Type :=
| NInt (z : Z)        (* an integer-valued Number *)
| NFrac.              (* any other Number that JSON can denote *)

#[local] Set Warnings "-register-all".

(** The values [JSON.parse] can produce.  An object is its list of own
    properties in insertion order. *)
Inductive JSValue : Type :=
| JNull
| JBool (b : bool)
| JNum (x : JSNumber)
| JStr (s : jsstring)
| JArr (items : list JSValue)
| JObj (props : list (jsstring * JSValue)).

(** [!!v] *)
Definition truthy (v : JSValue) : bool :=
  match v with
  | JNull => false
  | JBool b => b
  | JNum (NInt z) => negb (z =? 0)
  | JNum NFrac => true
  | JStr s => negb (bool_decide (s = []))
  | JArr _ | JObj _ => true
  end.

(** [typeof v === 'object'] *)
Definition typeof_object (v : JSValue) : bool :=
  match v with
  | JNull | JArr _ | JObj _ => true
  | _ => false
  end.

Fixpoint assoc (k : jsstring) (props : list (jsstring * JSValue))
  : option JSValue :=
  match props with
  | [] => None
  | (k', v) :: rest => if str_eqb k' k then Some v else assoc k rest
  end.

(** [v.name] for a property name that is neither an array index nor
    defined on a built-in prototype ([fibonacci], [prime], [lcm], [hcf],
    [AI], [data]); [None] is [undefined]. *)
Definition get_named (v : JSValue) (name : jsstring) : option JSValue :=
  match v with
  | JObj props => assoc name props
  | _ => None
  end.

(** The decimal digits of an array index. *)
Definition index_key (i : nat) : jsstring := js (pretty (N.of_nat i)).

(** [Object.keys(v)] for [v] of type object and not null.  Objects built
    by [JSON.parse] list their keys in insertion order, except that
    index-like keys come first; the dispatcher only distinguishes how
    many keys there are and, when there is one, which. *)
Definition Object_keys (v : JSValue) : list jsstring :=
  match v with
  | JObj props => map fst props
  | JArr items => map index_key (seq 0 (length items))
  | _ => []
  end.

(** [Number.isInteger(v)], with the integer when it holds. *)
Definition isInteger (v : option JSValue) : option Z :=
  match v with
  | Some (JNum (NInt z)) => Some z
  | _ => None
  end.

(** ** JSON texts

    A reference reading of [JSON.parse]: the JSON grammar, with a
    duplicate key keeping its first position and its last value.  The
    sanitizer itself is stated over any [JSON.parse] (see [Service]); this
    one is used to run it on concrete texts. *)

Module JSONText.

(** The double nearest to [p / q] for [p, q > 0], as far as
    [Number.isInteger] can tell. *)
Definition nearest (p q : Z) : JSNumber :=
  let e0 := Z.log2 p - Z.log2 q in
  let reaches e := if 0 <=? e then q * 2 ^ e <=? p else q <=? p * 2 ^ (- e) in
  let e := if reaches e0 then e0 else e0 - 1 in
  if e <? -1022 then
    if p * 2 ^ 1075 <=? q then NInt 0 else NFrac
  else
    let sh := e - 52 in
    let num := if 0 <=? sh then p else p * 2 ^ (- sh) in
    let den := if 0 <=? sh then q * 2 ^ sh else q in
    let m := num / den in
    let r := num mod den in
    let m' := if (den <? 2 * r) || ((den =? 2 * r) && Z.odd m) then m + 1
              else m in
    if 0 <=? sh then
      if 2 ^ 1024 <=? m' * 2 ^ sh then NFrac else NInt (m' * 2 ^ sh)
    else if m' mod 2 ^ (- sh) =? 0 then NInt (m' / 2 ^ (- sh))
    else NFrac.

Definition is_digit (c : N) : bool := ((48 <=? c) && (c <=? 57))%N.

Fixpoint digits (s : jsstring) : jsstring * jsstring :=
  match s with
  | c :: s' => if is_digit c then let (d, r) := digits s' in (c :: d, r)
               else ([], s)
  | [] => ([], [])
  end.

Definition digits_value (d : jsstring) : Z :=
  fold_left (fun acc c => 10 * acc + (Z.of_N c - 48)) d 0.

(** The value of [-? int frac? exp?], given its parts. *)
Definition number_value (neg : bool) (int frac : jsstring)
    (exp_neg : bool) (exp : jsstring) : JSNumber :=
  let d := digits_value (int ++ frac) in
  let ex := (if exp_neg then - digits_value exp else digits_value exp)
            - Z.of_nat (length frac) in
  if d =? 0 then NInt 0
  else
    match (if 0 <=? ex then nearest (d * 10 ^ ex) 1
           else nearest d (10 ^ (- ex))) with
    | NInt z => NInt (if neg then - z else z)
    | NFrac => NFrac
    end.

(** A number token at the head of [s], and what follows it. *)
Definition parse_number (s : jsstring) : option (JSNumber * jsstring) :=
  let (neg, s1) := match s with
                   | 45%N :: r => (true, r)
                   | _ => (false, s)
                   end in
  let (int, s2) := digits s1 in
  match int with
  | [] => None
  | d0 :: more =>
      if (d0 =? 48)%N && negb (bool_decide (more = [])) then None
      else
        let frac_part :=
          match s2 with
          | 46%N :: r =>
              let (f, r') := digits r in
              match f with [] => None | _ => Some (f, r') end
          | _ => Some ([], s2)
          end in
        match frac_part with
        | None => None
        | Some (frac, s3) =>
            match s3 with
            | c :: r =>
                if ((c =? 101) || (c =? 69))%N then
                  let (eneg, r1) :=
                    match r with
                    | 45%N :: r' => (true, r')
                    | 43%N :: r' => (false, r')
                    | _ => (false, r)
                    end in
                  let (ex, r2) := digits r1 in
                  match ex with
                  | [] => None
                  | _ => Some (number_value neg int frac eneg ex, r2)
                  end
                else Some (number_value neg int frac false [], s3)
            | [] => Some (number_value neg int frac false [], s3)
            end
        end
  end.

Definition is_ws (c : N) : bool :=
  ((c =? 9) || (c =? 10) || (c =? 13) || (c =? 32))%N.

Fixpoint skip_ws (s : jsstring) : jsstring :=
  match s with
  | c :: s' => if is_ws c then skip_ws s' else s
  | [] => []
  end.

Definition hex_digit (c : N) : option N :=
  (if (48 <=? c) && (c <=? 57) then Some (c - 48)
   else if (65 <=? c) && (c <=? 70) then Some (c - 55)
   else if (97 <=? c) && (c <=? 102) then Some (c - 87)
   else None)%N.

(** The characters of a string token after its opening quote. *)
Fixpoint parse_string (s : jsstring) (acc : jsstring)
  : option (jsstring * jsstring) :=
  match s with
  | [] => None
  | 34%N :: rest => Some (rev acc, rest)
  | 92%N :: e :: rest =>
      match e with
      | 34%N | 92%N | 47%N => parse_string rest (e :: acc)
      | 98%N => parse_string rest (8%N :: acc)
      | 102%N => parse_string rest (12%N :: acc)
      | 110%N => parse_string rest (10%N :: acc)
      | 114%N => parse_string rest (13%N :: acc)
      | 116%N => parse_string rest (9%N :: acc)
      | 117%N =>
          match rest with
          | h1 :: h2 :: h3 :: h4 :: rest' =>
              match hex_digit h1, hex_digit h2, hex_digit h3, hex_digit h4 with
              | Some a, Some b, Some c, Some d =>
                  parse_string rest' ((((a * 16 + b) * 16 + c) * 16 + d)%N :: acc)
              | _, _, _, _ => None
              end
          | _ => None
          end
      | _ => None
      end
  | c :: rest => if (c <? 32)%N then None else parse_string rest (c :: acc)
  end.

Fixpoint obj_set (props : list (jsstring * JSValue)) (k : jsstring)
    (v : JSValue) : list (jsstring * JSValue) :=
  match props with
  | [] => [(k, v)]
  | (k', v') :: rest =>
      if str_eqb k' k then (k', v) :: rest else (k', v') :: obj_set rest k v
  end.

Definition expect (t : jsstring) (s : jsstring) : option jsstring :=
  if str_eqb (take (length t) s) t then Some (drop (length t) s) else None.

Fixpoint parse_value (fuel : nat) (s : jsstring)
  : option (JSValue * jsstring) :=
  match fuel with
  | O => None
  | S fuel' =>
      match skip_ws s with
      | 123%N :: r =>
          match skip_ws r with
          | 125%N :: r' => Some (JObj [], r')
          | _ => parse_members fuel' [] r
          end
      | 91%N :: r =>
          match skip_ws r with
          | 93%N :: r' => Some (JArr [], r')
          | _ => parse_elements fuel' [] r
          end
      | 34%N :: r =>
          match parse_string r [] with
          | Some (t, r') => Some (JStr t, r')
          | None => None
          end
      | 116%N :: r =>
          match expect (js "rue") r with
          | Some r' => Some (JBool true, r')
          | None => None
          end
      | 102%N :: r =>
          match expect (js "alse") r with
          | Some r' => Some (JBool false, r')
          | None => None
          end
      | 110%N :: r =>
          match expect (js "ull") r with
          | Some r' => Some (JNull, r')
          | None => None
          end
      | s' =>
          match parse_number s' with
          | Some (x, r') => Some (JNum x, r')
          | None => None
          end
      end
  end
with parse_elements (fuel : nat) (acc : list JSValue) (s : jsstring)
  : option (JSValue * jsstring) :=
  match fuel with
  | O => None
  | S fuel' =>
      match parse_value fuel' s with
      | Some (v, r) =>
          match skip_ws r with
          | 44%N :: r' => parse_elements fuel' (acc ++ [v]) r'
          | 93%N :: r' => Some (JArr (acc ++ [v]), r')
          | _ => None
          end
      | None => None
      end
  end
with parse_members (fuel : nat) (acc : list (jsstring * JSValue))
    (s : jsstring) : option (JSValue * jsstring) :=
  match fuel with
  | O => None
  | S fuel' =>
      match skip_ws s with
      | 34%N :: r =>
          match parse_string r [] with
          | Some (k, r1) =>
              match skip_ws r1 with
              | 58%N :: r2 =>
                  match parse_value fuel' r2 with
                  | Some (v, r3) =>
                      match skip_ws r3 with
                      | 44%N :: r4 => parse_members fuel' (obj_set acc k v) r4
                      | 125%N :: r4 => Some (JObj (obj_set acc k v), r4)
                      | _ => None
                      end
                  | None => None
                  end
              | _ => None
              end
          | None => None
          end
      | _ => None
      end
  end.

(** [JSON.parse(text)]; [None] is a [SyntaxError].  Every recursive
    call is made after at least one code unit has been read, so the
    length of the text bounds the depth. *)
Definition parse (text : jsstring) : option JSValue :=
  match parse_value (S (length text)) text with
  | Some (v, r) => match skip_ws r with [] => Some v | _ => None end
  | None => None
  end.

End JSONText.

(** ** Regular expressions

    The sanitizer is a chain of [String.prototype.replace] calls with
    regular-expression literals.  Every quantifier in them applies to a
    single character class, so the syntax below has classes, quantified
    classes, sequencing, one capturing group and the word boundary.  The
    matcher is the backtracking matcher of the language: it tries the
    alternatives of a quantifier in priority order (greedy: one more
    repetition first; lazy: stop first) and the first success wins. *)

Module Regex.

Inductive regex : Type :=
| Chr (p : N -> bool)                        (* a class, once *)
| Rep (greedy : bool) (min : nat) (p : N -> bool)   (* class{min,} *)
| Seq (r1 r2 : regex)
| Group (r : regex)                          (* capturing group 1 *)
| WordB.                                     (* \b *)

(** [\w] *)
Definition is_word (c : N) : bool :=
  ((48 <=? c) && (c <=? 57) || (65 <=? c) && (c <=? 90)
   || (97 <=? c) && (c <=? 122) || (c =? 95))%N.

Definition is_word_opt (o : option N) : bool :=
  match o with Some c => is_word c | None => false end.

(** The state of a match attempt: the code unit before the current
    position (for [\b]), the input left, and the capture. *)
Definition cont (A : Type) : Type :=
  option N -> jsstring -> option jsstring -> option A.

Fixpoint rep {A : Type} (greedy : bool) (p : N -> bool) (k : cont A)
    (min : nat) (prev : option N) (s : jsstring) (cap : option jsstring)
    {struct s} : option A :=
  let stop := match min with O => k prev s cap | S _ => None end in
  let more :=
    match s with
    | c :: s' => if p c then rep greedy p k (Nat.pred min) (Some c) s' cap
                 else None
    | [] => None
    end in
  if greedy then match more with Some a => Some a | None => stop end
  else match stop with Some a => Some a | None => more end.

Fixpoint run {A : Type} (r : regex) (prev : option N) (s : jsstring)
    (cap : option jsstring) (k : cont A) {struct r} : option A :=
  match r with
  | Chr p =>
      match s with
      | c :: s' => if p c then k (Some c) s' cap else None
      | [] => None
      end
  | Rep greedy min p => rep greedy p k min prev s cap
  | Seq r1 r2 =>
      run r1 prev s cap (fun prev' s' cap' => run r2 prev' s' cap' k)
  | Group r1 =>
      run r1 prev s cap
        (fun prev' s' _ =>
           k prev' s' (Some (take (length s - length s') s)))
  | WordB =>
      if xorb (is_word_opt prev) (is_word_opt (head s)) then k prev s cap
      else None
  end.

(** One successful match: the text skipped before it, the matched text,
    the capture, and what follows with its preceding code unit. *)
Record found : Type := {
  before : jsstring;
  matched : jsstring;
  group1 : option jsstring;
  after_prev : option N;
  after : jsstring
}.

Definition match_here (r : regex) (prev : option N) (s : jsstring)
  : option found :=
  run r prev s None
    (fun prev' s' cap =>
       Some {| before := []; matched := take (length s - length s') s;
               group1 := cap; after_prev := prev'; after := s' |}).

(** The leftmost match at or after the current position. *)
Fixpoint search (r : regex) (prev : option N) (s : jsstring)
  : option found :=
  match match_here r prev s with
  | Some f => Some f
  | None =>
      match s with
      | [] => None
      | c :: s' =>
          match search r (Some c) s' with
          | Some f => Some {| before := c :: before f;
                              matched := matched f; group1 := group1 f;
                              after_prev := after_prev f;
                              after := after f |}
          | None => None
          end
      end
  end.

(** [s.match(r)] for a regular expression without the [g] flag:
    element 0 of the result. *)
Definition str_match (r : regex) (s : jsstring) : option jsstring :=
  match search r None s with
  | Some f => Some (matched f)
  | None => None
  end.

(** Replacement texts: a literal without [$], or ['$1']. *)
Inductive replacement : Type :=
| Lit (t : jsstring)
| Dollar1.

Definition expand (rp : replacement) (f : found) : jsstring :=
  match rp with
  | Lit t => t
  | Dollar1 => match group1 f with Some g => g | None => [] end
  end.

(** [s.replace(r, rp)] with the [g] flag.  After an empty match the
    scan moves one code unit on.  [fuel] bounds the number of matches,
    of which there is at most one per position. *)
Fixpoint replace_from (fuel : nat) (r : regex) (rp : replacement)
    (prev : option N) (s : jsstring) : jsstring :=
  match fuel with
  | O => s
  | S fuel' =>
      match search r prev s with
      | None => s
      | Some f =>
          before f ++ expand rp f ++
          match matched f, after f with
          | [], [] => []
          | [], c :: rest => c :: replace_from fuel' r rp (Some c) rest
          | _ :: _, rest => replace_from fuel' r rp (after_prev f) rest
          end
      end
  end.

Definition replace_all (r : regex) (rp : replacement) (s : jsstring)
  : jsstring :=
  replace_from (S (length s)) r rp None s.

(** The literal [t] as a regular expression, [t] not empty. *)
Fixpoint lit (c : N) (t : jsstring) : regex :=
  match t with
  | [] => Chr (N.eqb c)
  | c' :: t' => Seq (Chr (N.eqb c)) (lit c' t')
  end.

Definition any (c : N) : bool := true.

End Regex.

(** ** The service

    What the program takes from its platform is a parameter: the two
    environment variables, the built-ins [JSON.parse] and
    [JSON.stringify(_, null, 2)], and the generative model behind
    [model.generateContent(prompt)] followed by [response.text()]. *)

Record RateEntry : Type := { count : Z; start : Z }.

Record Envelope : Type := {
  is_success : bool;
  official_email : option jsstring;     (* [None] is [null] *)
  data : option JSValue;                (* [None]: the field is absent *)
  error : option jsstring
}.

Record Response : Type := { status : Z; body : Envelope }.

(** What a middleware does with a request. *)
Inductive Outcome : Type :=
| Next
| Respond (r : Response).

Record Request : Type := {
  req_ip : option jsstring;
  (** [req.connection], and its [remoteAddress] when it is there *)
  req_connection : option (option jsstring)
}.

Definition RATE_LIMIT : Z := 120.
Definition RATE_WINDOW_MS : Z := 60 * 1000.

(** [\s], and what [trim] removes. *)
Definition is_space (c : N) : bool :=
  ((9 <=? c) && (c <=? 13) || (c =? 32) || (c =? 160) || (c =? 5760)
   || (8192 <=? c) && (c <=? 8202) || (c =? 8232) || (c =? 8233)
   || (c =? 8239) || (c =? 8287) || (c =? 12288) || (c =? 65279))%N.

Fixpoint trim_start (s : jsstring) : jsstring :=
  match s with
  | c :: s' => if is_space c then trim_start s' else s
  | [] => []
  end.

Definition trim (s : jsstring) : jsstring :=
  rev (trim_start (rev (trim_start s))).

(** A string or undefined operand of [||] or [!]. *)
Definition nonempty (o : option jsstring) : bool :=
  match o with
  | Some (_ :: _) => true
  | _ => false
  end.

Section Service.

Variable OFFICIAL_EMAIL : option jsstring.
Variable GEMINI_API_KEY : option jsstring.
Variable JSON_parse : jsstring -> option JSValue.   (* [None]: it throws *)
Variable JSON_stringify : JSValue -> jsstring.
Variable generateContent : jsstring -> option jsstring. (* [None]: it throws *)

(** [OFFICIAL_EMAIL || null] *)
Definition email_or_null : option jsstring :=
  if nonempty OFFICIAL_EMAIL then OFFICIAL_EMAIL else None.

Definition sendError (st : Z) (message : jsstring) : Response :=
  {| status := st;
     body := {| is_success := false; official_email := email_or_null;
                data := None; error := Some message |} |}.

(** [res.json({ is_success: true, official_email: OFFICIAL_EMAIL, data })] *)
Definition sendData (d : JSValue) : Response :=
  {| status := 200;
     body := {| is_success := true; official_email := OFFICIAL_EMAIL;
                data := Some d; error := None |} |}.

(** *** Rate limiter *)

(** [req.ip || req.connection.remoteAddress || 'unknown']; [None] when
    reading [remoteAddress] of an undefined [req.connection] throws. *)
Definition client_key (req : Request) : option jsstring :=
  if nonempty (req_ip req) then req_ip req
  else
    match req_connection req with
    | None => None
    | Some addr => if nonempty addr then addr else Some (js "unknown")
    end.

Definition rateLimiter (rateMap : gmap jsstring RateEntry) (req : Request)
    (now : Z) : gmap jsstring RateEntry * Outcome :=
  match client_key req with
  | None => (rateMap, Next)
  | Some ip =>
      let entry :=
        match rateMap !! ip with
        | Some e => e
        | None => {| count := 0; start := now |}
        end in
      let entry :=
        if RATE_WINDOW_MS <? JSNum.sub now (start entry)
        then {| count := 1; start := now |}
        else {| count := JSNum.add (count entry) 1; start := start entry |} in
      let rateMap := <[ip := entry]> rateMap in
      if RATE_LIMIT <? count entry
      then (rateMap, Respond (sendError 429 (js "Too many requests")))
      else (rateMap, Next)
  end.

(** The 429 response. *)
Definition too_many : Outcome :=
  Respond (sendError 429 (js "Too many requests")).

(** The requests are served one after the other; the outcomes of the
    requests of client [ip], in order, and the map at the end. *)
Fixpoint serve (ip : jsstring) (rateMap : gmap jsstring RateEntry)
    (requests : list (Request * Z))
  : list Outcome * gmap jsstring RateEntry :=
  match requests with
  | [] => ([], rateMap)
  | (req, now) :: rest =>
      let (rateMap', o) := rateLimiter rateMap req now in
      let (os, final) := serve ip rateMap' rest in
      (if bool_decide (client_key req = Some ip) then o :: os else os,
       final)
  end.

(** Every request of client [ip] arrives within the window that began
    at [t0]. *)
Definition in_window (ip : jsstring) (t0 : Z)
    (requests : list (Request * Z)) : Prop :=
  forall req now, In (req, now) requests -> client_key req = Some ip ->
    now - t0 <= RATE_WINDOW_MS.

(** The outcome of the request that brings the count of its window to
    [j]. *)
Definition verdict (j : Z) : Outcome :=
  if RATE_LIMIT <? j then too_many else Next.

(** The verdicts for the counts [j+1, ..., j+k]. *)
Fixpoint verdicts (j : Z) (k : nat) : list Outcome :=
  match k with
  | O => []
  | S k' => verdict (j + 1) :: verdicts (j + 1) k'
  end.

(** *** Response sanitizer *)

Import Regex.

Definition backtick : N := 96.
Definition backslash : N := 92.
Definition star : N := 42.
Definition underscore : N := 95.
Definition dquote : N := 34.
Definition LF : N := 10.
Definition CR : N := 13.

(** [/```[\s\S]*?```/g] *)
Definition re_fence : regex :=
  Seq (lit backtick [backtick; backtick])
    (Seq (Rep false 0 any) (lit backtick [backtick; backtick])).

(** [/\{[\s\S]*\}/] *)
Definition re_json : regex :=
  Seq (Chr (N.eqb 123)) (Seq (Rep true 0 any) (Chr (N.eqb 125))).

Definition is_letter (c : N) : bool :=
  ((65 <=? c) && (c <=? 90) || (97 <=? c) && (c <=? 122))%N.
Definition is_digit (c : N) : bool := ((48 <=? c) && (c <=? 57))%N.

(** [[A-Z0-9._%+-]] and [[A-Z0-9.-]] under the [i] flag *)
Definition is_local (c : N) : bool :=
  (is_letter c || is_digit c || (c =? 46) || (c =? 95) || (c =? 37)
   || (c =? 43) || (c =? 45))%N.
Definition is_domain (c : N) : bool :=
  (is_letter c || is_digit c || (c =? 46) || (c =? 45))%N.

(** [/\b[A-Z0-9._%+-]+@[A-Z0-9.-]+\.[A-Z]{2,}\b/gi] *)
Definition re_email : regex :=
  Seq WordB (Seq (Rep true 1 is_local) (Seq (Chr (N.eqb 64))
    (Seq (Rep true 1 is_domain) (Seq (Chr (N.eqb 46))
      (Seq (Rep true 2 is_letter) WordB))))).

(** [/\*\*(.*?)\*\*/gs], [/__(.*?)__/gs], [/\*(.*?)\*/gs] *)
Definition re_bold : regex :=
  Seq (lit star [star]) (Seq (Group (Rep false 0 any)) (lit star [star])).
Definition re_bold_underscore : regex :=
  Seq (lit underscore [underscore])
    (Seq (Group (Rep false 0 any)) (lit underscore [underscore])).
Definition re_italic : regex :=
  Seq (Chr (N.eqb star)) (Seq (Group (Rep false 0 any)) (Chr (N.eqb star))).

(** [/`([^`]+)`/g] *)
Definition re_code : regex :=
  Seq (Chr (N.eqb backtick))
    (Seq (Group (Rep true 1 (fun c => negb (c =? backtick)%N)))
       (Chr (N.eqb backtick))).

(** [/&quot;/g], [/\\n/g], [/\\+/g], [/\r\n/g], [/\n{3,}/g] *)
Definition re_quot : regex := lit 38 (js "quot;").
Definition re_escaped_n : regex := lit backslash (js "n").
Definition re_backslashes : regex := Rep true 1 (N.eqb backslash).
Definition re_crlf : regex := lit CR [LF].
Definition re_blank_lines : regex := Rep true 3 (N.eqb LF).

(** The block under "Try to extract and parse any JSON blob". *)
Definition extractJson (s : jsstring) : jsstring :=
  match str_match re_json s with
  | Some jsonMatch =>
      match JSON_parse jsonMatch with
      | Some parsed =>
          match parsed with
          | JStr t => t
          | _ =>
              match truthy parsed, get_named parsed (js "data") with
              | true, Some (JStr d) => d
              | _, _ => JSON_stringify parsed
              end
          end
      | None => jsonMatch
      end
  | None => s
  end.

(** The replacements after the JSON block, in program order. *)
Definition polish (s : jsstring) : jsstring :=
  let s := replace_all re_email (Lit []) s in
  let s := replace_all re_bold Dollar1 s in
  let s := replace_all re_bold_underscore Dollar1 s in
  let s := replace_all re_italic Dollar1 s in
  let s := replace_all re_code Dollar1 s in
  let s := replace_all re_quot (Lit [dquote]) s in
  let s := replace_all re_escaped_n (Lit [LF]) s in
  let s := replace_all re_backslashes (Lit []) s in
  trim (replace_all re_blank_lines (Lit [LF; LF])
          (replace_all re_crlf (Lit [LF]) s)).

Definition cleanAIContent (raw : jsstring) : jsstring :=
  match raw with
  | [] => []
  | _ =>
      let s := raw in
      let s := replace_all re_fence (Lit []) s in
      let s := extractJson s in
      polish s
  end.

(** *** Request dispatcher *)

Definition allowedKeys : list jsstring :=
  [js "fibonacci"; js "prime"; js "lcm"; js "hcf"; js "AI"].

(** [allowedKeys.includes(key)] *)
Definition includes (keys : list jsstring) (key : jsstring) : bool :=
  existsb (fun k => str_eqb k key) keys.

(** [arr.map((x) => { if (!isInteger(x)) throw ...; return x; })];
    [None] when it throws. *)
Fixpoint integers (arr : list JSValue) : option (list Z) :=
  match arr with
  | [] => Some []
  | x :: rest =>
      match isInteger (Some x) with
      | Some z =>
          match integers rest with
          | Some zs => Some (z :: zs)
          | None => None
          end
      | None => None
      end
  end.

(** [nums.filter((x) => isPrimeNum(x))] *)
Fixpoint filter_primes (nums : list Z) : option (list Z) :=
  match nums with
  | [] => Some []
  | x :: rest =>
      match isPrimeNum x, filter_primes rest with
      | Some b, Some ps => Some (if b then x :: ps else ps)
      | _, _ => None
      end
  end.

Definition number (z : Z) : JSValue := JNum (NInt z).

(** The handler of [POST /bfhl].  [None] only if a kernel loop is cut
    short by its fuel. *)
Definition bfhl (body : option JSValue) : option Response :=
  if negb (nonempty OFFICIAL_EMAIL) then
    Some (sendError 500 (js "Server not configured: OFFICIAL_EMAIL missing"))
  else
  match body with
  | None => Some (sendError 400 (js "Invalid JSON body"))
  | Some body =>
  if negb (truthy body) || negb (typeof_object body) then
    Some (sendError 400 (js "Invalid JSON body"))
  else
  match Object_keys body with
  | [key] =>
    if negb (includes allowedKeys key) then
      Some (sendError 400 (js "Unsupported key provided"))
    else if str_eqb key (js "fibonacci") then
      match isInteger (get_named body (js "fibonacci")) with
      | Some n =>
          if (n <=? 0) || (1000 <? n) then
            Some (sendError 400
                    (js "fibonacci must be an integer in range 1..1000"))
          else
            match fibSeries n with
            | Some res => Some (sendData (JArr (map number res)))
            | None => None
            end
      | None =>
          Some (sendError 400
                  (js "fibonacci must be an integer in range 1..1000"))
      end
    else if str_eqb key (js "prime") then
      match get_named body (js "prime") with
      | Some (JArr (x :: xs)) =>
          match integers (x :: xs) with
          | Some nums =>
              match filter_primes nums with
              | Some ps => Some (sendData (JArr (map number ps)))
              | None => None
              end
          | None =>
              Some (sendError 400 (js "prime array must contain integers"))
          end
      | _ => Some (sendError 400 (js "prime must be a non-empty array"))
      end
    else if str_eqb key (js "hcf") then
      match get_named body (js "hcf") with
      | Some (JArr (x :: xs)) =>
          match integers (x :: xs) with
          | Some nums =>
              match gcdArray nums with
              | Some g => Some (sendData (number g))
              | None =>
                  Some (sendError 400
                          (js "Reduce of empty array with no initial value"))
              end
          | None =>
              Some (sendError 400 (js "hcf array must contain integers"))
          end
      | _ => Some (sendError 400 (js "hcf must be a non-empty array"))
      end
    else if str_eqb key (js "lcm") then
      match get_named body (js "lcm") with
      | Some (JArr (x :: xs)) =>
          match integers (x :: xs) with
          | Some nums =>
              match lcmArray nums with
              | Some m => Some (sendData (number m))
              | None =>
                  Some (sendError 400
                          (js "Reduce of empty array with no initial value"))
              end
          | None =>
              Some (sendError 400 (js "lcm array must contain integers"))
          end
      | _ => Some (sendError 400 (js "lcm must be a non-empty array"))
      end
    else if str_eqb key (js "AI") then
      match get_named body (js "AI") with
      | Some (JStr question) =>
          if bool_decide (trim question = []) then
            Some (sendError 400 (js "AI must be a non-empty string"))
          else if negb (nonempty GEMINI_API_KEY) then
            Some (sendError 503 (js "AI service not configured"))
          else
            match generateContent (js "Answer Question: " ++ question) with
            | Some content =>
                if bool_decide (content = []) then
                  Some (sendError 502 (js "AI service returned no answer"))
                else
                  Some (sendData (JStr (cleanAIContent (trim content))))
            | None => Some (sendError 502 (js "AI service error"))
            end
      | _ => Some (sendError 400 (js "AI must be a non-empty string"))
      end
    else Some (sendError 400 (js "Unhandled key"))
  | _ =>
    Some (sendError 400
            (js "Request must contain exactly one top-level key"))
  end
  end.

End Service.

(** ** Vocabulary of the statements *)

(** The greatest common divisor and least common multiple of a list. *)
Definition gcd_list (l : list Z) : Z := fold_right Z.gcd 0 l.
Definition lcm_list (l : list Z) : Z := fold_right Z.lcm 1 l.

(** The recursive call that [gcd a b] makes, if any. *)
Inductive gcd_call : Z * Z -> Z * Z -> Prop :=
| gcd_call_intro a b :
    JSNum.abs b <> 0 ->
    gcd_call (a, b) (JSNum.abs b, JSNum.rem (JSNum.abs a) (JSNum.abs b)).

(** What the loop of [fibSeries] maintains. *)
Definition fib_inv (res : list Z) : Prop :=
  (2 <= length res)%nat /\ nth 0 res 0 = 0 /\ nth 1 res 0 = 1 /\
  forall i, (2 <= i < length res)%nat ->
    nth i res 0 = JSNum.add (nth (i - 1) res 0) (nth (i - 2) res 0).

(** The sums of a run are exact. *)
Definition sums_exact (res : list Z) : bool :=
  forallb (fun i => nth i res 0 =? nth (i - 1) res 0 + nth (i - 2) res 0)
          (seq 2 (length res - 2)).

(** The count after [j] requests of a window, [j >= 1]: it is [j], or
    both have passed 2^53, where the count no longer moves. *)
Definition counted (j c : Z) : Prop :=
  c = j \/ (2 ^ 53 <= c /\ 2 ^ 53 <= j).

(** How many of the requests are from [ip]. *)
Fixpoint requests_of (ip : jsstring) (requests : list (Request * Z)) : nat :=
  match requests with
  | [] => O
  | (req, _) :: rest =>
      if bool_decide (client_key req = Some ip) then S (requests_of ip rest)
      else requests_of ip rest
  end.

(** [ps] is what is left of [nums] when the elements that are not prime
    are struck out. *)
Inductive primes_of : list Z -> list Z -> Prop :=
| primes_of_nil : primes_of [] []
| primes_of_keep x nums ps :
    Z.prime x -> primes_of nums ps -> primes_of (x :: nums) (x :: ps)
| primes_of_drop x nums ps :
    ~ Z.prime x -> primes_of nums ps -> primes_of (x :: nums) ps.

(** The request bodies the dispatcher is meant to serve. *)
Inductive valid_request : option JSValue -> Prop :=
| valid_fibonacci n :
    1 <= n <= 1000 ->
    valid_request (Some (JObj [(js "fibonacci", number n)]))
| valid_prime x nums :
    valid_request (Some (JObj [(js "prime", JArr (map number (x :: nums)))]))
| valid_lcm x nums :
    valid_request (Some (JObj [(js "lcm", JArr (map number (x :: nums)))]))
| valid_hcf x nums :
    valid_request (Some (JObj [(js "hcf", JArr (map number (x :: nums)))]))
| valid_AI question :
    trim question <> [] ->
    valid_request (Some (JObj [(js "AI", JStr question)])).

(** The messages of the 400 responses. *)
Definition validation_messages : list jsstring :=
  [js "Invalid JSON body";
   js "Request must contain exactly one top-level key";
   js "Unsupported key provided";
   js "fibonacci must be an integer in range 1..1000";
   js "prime must be a non-empty array";
   js "prime array must contain integers";
   js "hcf must be a non-empty array";
   js "hcf array must contain integers";
   js "lcm must be a non-empty array";
   js "lcm array must contain integers";
   js "AI must be a non-empty string"].







(** A configuration to run the service on: the service identity is set,
    no AI credential and no model. *)
Definition demo_email : option jsstring := Some (js "dev@example.com").
Definition demo_handler : option JSValue -> option Response :=
  bfhl demo_email None JSONText.parse (fun _ => []) (fun _ => None).

(** A client of the demo service. *)
Definition demo_ip : jsstring := js "10.0.0.7".
Definition demo_request : Request :=
  {| req_ip := Some demo_ip; req_connection := None |}.

(** The Fibonacci numbers, by the pair [(F n, F (n+1))]. *)
Fixpoint fib_pair (n : nat) : Z * Z :=
  match n with
  | O => (0, 1)
  | S m => let (a, b) := fib_pair m in (b, a + b)
  end.
Definition Fib (n : nat) : Z := fst (fib_pair n).

(** The requests of client [ip] among [requests]. *)
Definition own (ip : jsstring) (requests : list (Request * Z))
  : list (Request * Z) :=
  List.filter (fun rq => bool_decide (client_key rq.1 = Some ip)) requests.

(** The client keys that occur in [requests]. *)
Fixpoint keys_of (requests : list (Request * Z)) : gset jsstring :=
  match requests with
  | [] => ∅
  | (req, _) :: rest =>
      match client_key req with
      | Some ip => {[ip]} ∪ keys_of rest
      | None => keys_of rest
      end
  end.

(** The handler of [GET /health]. *)
Definition health (OFFICIAL_EMAIL : option jsstring) : Response :=
  if negb (nonempty OFFICIAL_EMAIL) then
    sendError OFFICIAL_EMAIL 500
      (js "Server not configured: OFFICIAL_EMAIL missing")
  else
    {| status := 200;
       body := {| is_success := true; official_email := OFFICIAL_EMAIL;
                  data := None; error := None |} |}.

(** The two shapes of an answer of [POST /bfhl]: success with data and
    no error, or failure with a message and no data. *)
Definition uniform (OFFICIAL_EMAIL : option jsstring) (r : Response) : Prop :=
  (status r = 200 /\ is_success (body r) = true /\
   is_Some (data (body r)) /\ error (body r) = None /\
   official_email (body r) = OFFICIAL_EMAIL /\
   nonempty OFFICIAL_EMAIL = true)
  \/
  (In (status r) [400; 500; 502; 503] /\ is_success (body r) = false /\
   data (body r) = None /\
   (exists msg, error (body r) = Some msg /\ msg <> []) /\
   official_email (body r) = email_or_null OFFICIAL_EMAIL /\
   (status r = 500 <-> nonempty OFFICIAL_EMAIL = false)).

(** The characters that can start one of the replacements of the
    sanitizer: backtick, brace, at-sign, star, underscore, ampersand,
    backslash, carriage return and line feed. *)
Definition is_markup (c : N) : bool :=
  ((c =? 96) || (c =? 123) || (c =? 64) || (c =? 42) || (c =? 95)
   || (c =? 38) || (c =? 92) || (c =? 13) || (c =? 10))%N.

(** [needs r P]: every match of [r] reads a code unit with [P]. *)
Fixpoint needs (r : Regex.regex) (P : N -> Prop) : Prop :=
  match r with
  | Regex.Chr p => forall c, p c = true -> P c
  | Regex.Rep _ min p => (0 < min)%nat /\ forall c, p c = true -> P c
  | Regex.Seq r1 r2 => needs r1 P \/ needs r2 P
  | Regex.Group r1 => needs r1 P
  | Regex.WordB => False
  end.

Definition markup (c : N) : Prop := is_markup c = true.

(** ** Rounding *)

Module JSNumFacts.
Import JSNum.

Lemma rnd53_exact n : 0 <= n <= 2 ^ 53 -> rnd53 n = n.
Proof.
  intros Hn. unfold rnd53.
  destruct (Z.ltb_spec n (2 ^ 53)) as [|Hge]; [reflexivity|].
  assert (n = 2 ^ 53) as -> by lia.
  vm_compute. reflexivity.
Qed.

Lemma rnd53_shape n :
  2 ^ 53 <= n ->
  exists q e, 1 <= e /\ 2 ^ 52 <= q /\ rnd53 n = q * 2 ^ e.
Proof.
  intros Hn. unfold rnd53.
  destruct (Z.ltb_spec n (2 ^ 53)) as [|_]; [lia|].
  assert (Hlog : 53 <= Z.log2 n) by (apply Z.log2_le_pow2; lia).
  set (e := Z.log2 n - 52).
  assert (He : 1 <= e) by (unfold e; lia).
  assert (Hq : 2 ^ 52 <= n / 2 ^ e).
  { apply Z.div_le_lower_bound; [apply Z.pow_pos_nonneg; lia|].
    rewrite Z.mul_comm, <- Z.pow_add_r by lia.
    replace (52 + e) with (Z.log2 n) by (unfold e; lia).
    apply Z.log2_spec; lia. }
  destruct (_ || _); eexists _, e; (split; [exact He|split; [|reflexivity]]); lia.
Qed.

Lemma rnd53_lower n : 2 ^ 53 <= n -> 2 ^ 53 <= rnd53 n.
Proof.
  intros Hn. destruct (rnd53_shape n Hn) as (q & e & He & Hq & ->).
  assert (2 ^ 1 <= 2 ^ e) by (apply Z.pow_le_mono_r; lia).
  change (2 ^ 53) with (2 ^ 52 * 2 ^ 1). nia.
Qed.

Lemma round53_exact z : Z.abs z <= 2 ^ 53 -> round53 z = z.
Proof.
  intros Hz. unfold round53. rewrite rnd53_exact by lia.
  destruct (Z.sgn_spec z) as [[? ->]|[[? ->]|[? ->]]]; lia.
Qed.

(** Beyond 2^53 in magnitude a double is an even integer. *)
Lemma round53_even z : 2 ^ 53 <= Z.abs z -> Z.even (round53 z) = true.
Proof.
  intros Hz. unfold round53.
  destruct (rnd53_shape _ Hz) as (q & e & He & Hq & ->).
  rewrite Z.even_mul, Z.even_mul.
  replace e with (Z.succ (e - 1)) by lia.
  rewrite Z.pow_succ_r by lia. rewrite Z.even_mul. simpl.
  rewrite !orb_true_r. reflexivity.
Qed.

Lemma representable_odd z :
  representable z -> Z.odd z = true -> Z.abs z < 2 ^ 53.
Proof.
  unfold representable. intros Hr Ho.
  destruct (Z.lt_ge_cases (Z.abs z) (2 ^ 53)) as [|Hge]; [assumption|].
  apply round53_even in Hge. rewrite Hr in Hge.
  rewrite <- Z.negb_odd, Ho in Hge. discriminate.
Qed.

(** Comparing a rounded value with a small constant. *)
Lemma round53_gt t d : 0 <= t < 2 ^ 53 -> (t < round53 d <-> t < d).
Proof.
  intros Ht.
  destruct (Z.le_gt_cases (Z.abs d) (2 ^ 53)) as [Hs|Hb].
  - rewrite round53_exact by assumption. reflexivity.
  - unfold round53.
    pose proof (rnd53_lower (Z.abs d) ltac:(lia)) as Hl.
    destruct (Z.sgn_spec d) as [[? ->]|[[? ->]|[? ->]]]; lia.
Qed.

Lemma add_exact a b : Z.abs (a + b) <= 2 ^ 53 -> add a b = a + b.
Proof. apply round53_exact. Qed.

Lemma mul_exact a b : Z.abs (a * b) <= 2 ^ 53 -> mul a b = a * b.
Proof. apply round53_exact. Qed.

Lemma small_representable z : Z.abs z <= 2 ^ 53 -> representable z.
Proof. apply round53_exact. Qed.

End JSNumFacts.

(** ** gcd and lcm *)

Lemma gcd_step (a b : Z) :
  b <> 0 -> Z.abs (JSNum.rem (JSNum.abs a) (JSNum.abs b)) < Z.abs b.
Proof.
  intros Hb. unfold JSNum.rem, JSNum.abs.
  pose proof (Z.rem_bound_pos (Z.abs a) (Z.abs b)). lia.
Qed.

Lemma gcd_zero_r (a : Z) : gcd a 0 = Z.abs a.
Proof. rewrite gcd_equation_1. reflexivity. Qed.

Lemma gcd_next (a b : Z) :
  b <> 0 ->
  gcd a b = gcd (JSNum.abs b) (JSNum.rem (JSNum.abs a) (JSNum.abs b)).
Proof.
  intros Hb. rewrite (gcd_equation_1 a b).
  destruct (Z.eq_dec (JSNum.abs b) 0) as [E|E];
    [unfold JSNum.abs in E; lia|reflexivity].
Qed.

(** The program's [gcd] computes the greatest common divisor. *)
Lemma gcd_Zgcd (a b : Z) : gcd a b = Z.gcd a b.
Proof.
  assert (H : forall n, 0 <= n ->
                forall a b, Z.abs b = n -> gcd a b = Z.gcd a b).
  { intros n Hn. pattern n. apply Z_lt_induction; [|exact Hn].
    clear n Hn. intros n IH a' b' Hb.
    destruct (Z.eq_dec b' 0) as [->|Hne].
    - rewrite gcd_zero_r, Z.gcd_0_r. reflexivity.
    - rewrite gcd_next by assumption. unfold JSNum.abs, JSNum.rem.
      pose proof (Z.rem_bound_pos (Z.abs a') (Z.abs b') ltac:(lia) ltac:(lia)).
      rewrite (IH (Z.abs (Z.rem (Z.abs a') (Z.abs b')))) by lia.
      rewrite Z.rem_mod_nonneg by lia.
      rewrite Z.gcd_comm, Z.gcd_mod by lia.
      rewrite Z.gcd_abs_l, Z.gcd_abs_r. apply Z.gcd_comm. }
  apply (H (Z.abs b)); [lia|reflexivity].
Qed.

Lemma gcd_list_nonneg l : 0 <= gcd_list l.
Proof. destruct l; simpl; [lia|apply Z.gcd_nonneg]. Qed.

Lemma fold_left_gcd xs : forall acc,
  xs <> [] ->
  fold_left (fun acc v => gcd acc v) xs acc = Z.gcd acc (gcd_list xs).
Proof.
  induction xs as [|y ys IH]; intros acc Hne; [congruence|].
  simpl. rewrite gcd_Zgcd.
  destruct ys as [|z zs].
  - simpl. rewrite Z.gcd_0_r, Z.gcd_abs_r. reflexivity.
  - rewrite IH by discriminate. rewrite Z.gcd_assoc. reflexivity.
Qed.

Lemma gcd_list_perm l l' : Permutation l l' -> gcd_list l = gcd_list l'.
Proof.
  induction 1 as [|x l l' _ IH|x y l|l l' l'' _ IH1 _ IH2]; simpl.
  - reflexivity.
  - rewrite IH. reflexivity.
  - rewrite !Z.gcd_assoc, (Z.gcd_comm y x). reflexivity.
  - congruence.
Qed.

Lemma gcd_list_divide l x : In x l -> (gcd_list l | x).
Proof.
  induction l as [|y l IH]; simpl; [tauto|].
  intros [->|Hin].
  - apply Z.gcd_divide_l.
  - etransitivity; [apply Z.gcd_divide_r|apply IH, Hin].
Qed.

Lemma gcdArray_two x y l :
  gcdArray (x :: y :: l) = Some (gcd_list (x :: y :: l)).
Proof.
  unfold gcdArray, reduce1. rewrite fold_left_gcd by discriminate.
  reflexivity.
Qed.

(** [lcm2] without rounding. *)
Lemma lcm2_exact a b : Z.lcm a b <= 2 ^ 53 -> lcm2 a b = Z.lcm a b.
Proof.
  intros Hle. unfold lcm2.
  destruct (Z.eqb_spec a 0) as [->|Ha]; [rewrite Z.lcm_0_l; reflexivity|].
  destruct (Z.eqb_spec b 0) as [->|Hb]; [rewrite Z.lcm_0_r; reflexivity|].
  simpl. rewrite gcd_Zgcd.
  pose proof (Z.gcd_nonneg a b) as Hg0.
  assert (Hg : Z.gcd a b <> 0).
  { intros E. apply Z.gcd_eq_0_l in E. contradiction. }
  destruct (Z.gcd_divide_l a b) as [a' Ea].
  destruct (Z.gcd_divide_r a b) as [b' Eb].
  set (g := Z.gcd a b) in *.
  assert (Hq : Z.quot a g = a').
  { rewrite Ea at 1. apply Z.quot_mul. exact Hg. }
  assert (Hl : Z.lcm a b = Z.abs (a' * b)).
  { unfold Z.lcm. fold g. f_equal.
    rewrite Eb at 1. rewrite Z.div_mul by exact Hg. rewrite Ea at 1. nia. }
  unfold JSNum.div, JSNum.mul, JSNum.abs. rewrite Hq.
  rewrite (JSNumFacts.round53_exact a').
  - rewrite JSNumFacts.round53_exact by lia. symmetry. exact Hl.
  - rewrite Hl in Hle. rewrite Z.abs_mul in Hle. nia.
Qed.

Lemma lcm2_zero_l b : lcm2 0 b = 0.
Proof. reflexivity. Qed.

Lemma lcm2_zero_r a : lcm2 a 0 = 0.
Proof. unfold lcm2. rewrite orb_true_r. reflexivity. Qed.

Lemma fold_left_lcm2_zero xs : fold_left (fun acc v => lcm2 acc v) xs 0 = 0.
Proof. induction xs as [|y ys IH]; simpl; [reflexivity|exact IH]. Qed.

Lemma fold_left_lcm2_has_zero xs : forall acc,
  In 0 xs -> fold_left (fun acc v => lcm2 acc v) xs acc = 0.
Proof.
  induction xs as [|y ys IH]; intros acc Hin; [destruct Hin|].
  simpl. destruct Hin as [->|Hin].
  - rewrite lcm2_zero_r. apply fold_left_lcm2_zero.
  - apply IH, Hin.
Qed.

Lemma lcm_list_nonneg l : 0 <= lcm_list l.
Proof. destruct l; simpl; [lia|apply Z.lcm_nonneg]. Qed.

Lemma lcm_list_zero l : lcm_list l = 0 <-> In 0 l.
Proof.
  induction l as [|y l IH]; simpl; [split; [lia|tauto]|].
  rewrite Z.lcm_eq_0, IH. intuition congruence.
Qed.

Lemma lcm_list_multiple l x : In x l -> (x | lcm_list l).
Proof.
  induction l as [|y l IH]; simpl; [tauto|].
  intros [->|Hin].
  - apply Z.divide_lcm_l.
  - etransitivity; [apply IH, Hin|apply Z.divide_lcm_r].
Qed.

Lemma fold_left_lcm2 xs : forall acc,
  xs <> [] -> Z.lcm acc (lcm_list xs) <> 0 ->
  Z.lcm acc (lcm_list xs) <= 2 ^ 53 ->
  fold_left (fun acc v => lcm2 acc v) xs acc = Z.lcm acc (lcm_list xs).
Proof.
  induction xs as [|y ys IH]; intros acc Hne Hnz Hle; [congruence|].
  simpl in *. rewrite Z.lcm_assoc in Hnz, Hle.
  assert (Hd : (Z.lcm acc y | Z.lcm (Z.lcm acc y) (lcm_list ys)))
    by apply Z.divide_lcm_l.
  pose proof (Z.lcm_nonneg acc y).
  pose proof (Z.lcm_nonneg (Z.lcm acc y) (lcm_list ys)).
  assert (Hstep : lcm2 acc y = Z.lcm acc y).
  { apply lcm2_exact. apply Z.divide_pos_le in Hd; lia. }
  rewrite Hstep.
  destruct ys as [|z zs].
  - simpl. rewrite Z.lcm_1_r, Z.lcm_abs_r. reflexivity.
  - rewrite IH by (try discriminate; assumption).
    rewrite Z.lcm_assoc. reflexivity.
Qed.

Lemma lcmArray_two x y l :
  lcm_list (x :: y :: l) <= 2 ^ 53 ->
  lcmArray (x :: y :: l) = Some (lcm_list (x :: y :: l)).
Proof.
  intros Hle. unfold lcmArray, reduce1. f_equal.
  destruct (Z.eq_dec (lcm_list (x :: y :: l)) 0) as [E|E].
  - rewrite E. apply lcm_list_zero in E.
    destruct E as [Hx|E].
    + subst x. apply fold_left_lcm2_zero.
    + apply fold_left_lcm2_has_zero, E.
  - apply fold_left_lcm2; [discriminate|exact E|exact Hle].
Qed.

(** C8. [gcd] terminates on every pair of integers: a call with second
    argument [b <> 0] makes its one recursive call with a second argument
    of strictly smaller absolute value, so there is no infinite chain of
    recursive calls, and the call with second argument 0 returns at once
    with [gcd a 0 = |a|]. *)
Theorem gcd_terminates :
  (forall a b, exists g, gcd a b = g /\ 0 <= g) /\
  (forall a b a' b', gcd_call (a, b) (a', b') ->
     Z.abs b' < Z.abs b /\ gcd a b = gcd a' b') /\
  well_founded (fun callee caller => gcd_call caller callee) /\
  (forall a, gcd a 0 = Z.abs a).
Proof.
  split; [|split; [|split]].
  - intros a b. exists (gcd a b). split; [reflexivity|].
    rewrite gcd_Zgcd. apply Z.gcd_nonneg.
  - intros a b a' b' Hc. inversion Hc as [a0 b0 Hb]; subst.
    unfold JSNum.abs in Hb.
    split; [apply gcd_step; lia|apply gcd_next; lia].
  - apply (well_founded_lt_compat _ (fun p => Z.to_nat (Z.abs (snd p)))).
    intros [a' b'] [a b] Hc. inversion Hc as [a0 b0 Hb]; subst. simpl.
    unfold JSNum.abs in Hb.
    pose proof (gcd_step a b ltac:(lia)). lia.
  - exact gcd_zero_r.
Qed.

(** C5, as the code has it.  For every non-empty list of integers,
    [gcdArray] returns the same value on every permutation of the list
    and its result divides every element; [lcmArray] returns an integer
    multiple of every element whenever the least common multiple of the
    list is at most 2^53, the range in which the products of [lcm2] are
    exact. *)
Theorem gcdArray_lcmArray_properties (l : list Z) :
  l <> [] ->
  (exists g, gcdArray l = Some g /\
     (forall l', Permutation l l' -> gcdArray l' = Some g) /\
     (forall x, In x l -> (g | x))) /\
  (lcm_list l <= 2 ^ 53 ->
   exists m, lcmArray l = Some m /\ forall x, In x l -> (x | m)).
Proof.
  intros Hne. destruct l as [|x [|y l]]; [congruence| |].
  - split.
    + exists x. split; [reflexivity|]. split.
      * intros l' Hp. apply Permutation_length_1_inv in Hp. subst l'.
        reflexivity.
      * intros z [<-|[]]. reflexivity.
    + intros _. exists x. split; [reflexivity|].
      intros z [<-|[]]. reflexivity.
  - split.
    + exists (gcd_list (x :: y :: l)). split; [apply gcdArray_two|]. split.
      * intros l' Hp.
        pose proof (Permutation_length Hp) as Hlen.
        destruct l' as [|x' [|y' l']]; try discriminate Hlen.
        rewrite gcdArray_two. f_equal. symmetry. apply gcd_list_perm, Hp.
      * intros z Hz. apply gcd_list_divide, Hz.
    + intros Hle. exists (lcm_list (x :: y :: l)).
      split; [apply lcmArray_two, Hle|].
      intros z Hz. apply lcm_list_multiple, Hz.
Qed.

Lemma gcdArray_lcmArray_properties_witness :
  [12; -18; 30] <> [] /\ lcm_list [12; -18; 30] <= 2 ^ 53 /\
  (exists g, gcdArray [12; -18; 30] = Some g /\
     (forall l', Permutation [12; -18; 30] l' -> gcdArray l' = Some g) /\
     (forall x, In x [12; -18; 30] -> (g | x))) /\
  (exists m, lcmArray [12; -18; 30] = Some m /\
     forall x, In x [12; -18; 30] -> (x | m)).
Proof.
  assert (Hne : [12; -18; 30] <> []) by discriminate.
  assert (Hle : lcm_list [12; -18; 30] <= 2 ^ 53) by (vm_compute; discriminate).
  destruct (gcdArray_lcmArray_properties [12; -18; 30] Hne) as [Hg Hl].
  split; [exact Hne|]. split; [exact Hle|]. split; [exact Hg|exact (Hl Hle)].
Defined.

Lemma gcd_terminates_witness :
  gcd_call (12, 18) (18, 12) /\ Z.abs 12 < Z.abs 18 /\ gcd 12 18 = gcd 18 12.
Proof.
  assert (Hc : gcd_call (12, 18) (18, 12)).
  { apply (gcd_call_intro 12 18). discriminate. }
  split; [exact Hc|].
  exact (proj1 (proj2 gcd_terminates) 12 18 18 12 Hc).
Defined.

(** C5 as stated fails for [lcmArray]: the product of 2^27+1 and 2^27+3
    is odd and lies above 2^54, where doubles are multiples of 4; the
    rounded product is one more than a multiple of 2^27+1. *)
Lemma lcmArray_not_multiple :
  JSNum.representable 134217729 /\ JSNum.representable 134217731 /\
  lcmArray [134217729; 134217731] = Some 18014399046352900 /\
  ~ (134217729 | 18014399046352900).
Proof.
  split; [reflexivity|]. split; [reflexivity|]. split.
  - unfold lcmArray, reduce1, fold_left, lcm2. rewrite gcd_Zgcd.
    vm_compute. reflexivity.
  - intros Hd. apply Z.mod_divide in Hd; [|lia]. vm_compute in Hd.
    discriminate.
Qed.

(** ** Fibonacci *)

Lemma fib_inv_push res :
  fib_inv res ->
  let l := Z.of_nat (length res) in
  fib_inv (res ++ [JSNum.add (at_index res (l - 1)) (at_index res (l - 2))]).
Proof.
  intros (Hlen & H0 & H1 & Hrec) l. unfold fib_inv.
  rewrite length_app. simpl.
  split; [lia|].
  split; [rewrite app_nth1 by lia; exact H0|].
  split; [rewrite app_nth1 by lia; exact H1|].
  intros i Hi.
  destruct (Nat.eq_dec i (length res)) as [->|Hneq].
  - rewrite app_nth2 by lia. rewrite Nat.sub_diag. simpl.
    rewrite !app_nth1 by lia. unfold at_index, l.
    replace (Z.to_nat (Z.of_nat (length res) - 1)) with (length res - 1)%nat by lia.
    replace (Z.to_nat (Z.of_nat (length res) - 2)) with (length res - 2)%nat by lia.
    reflexivity.
  - rewrite !app_nth1 by lia. apply Hrec. lia.
Qed.

Lemma fib_while_spec fuel : forall n res,
  fib_inv res ->
  n - Z.of_nat (length res) <= Z.of_nat fuel ->
  exists res', fib_while fuel n res = Some res' /\ fib_inv res' /\
               Z.of_nat (length res') = Z.max n (Z.of_nat (length res)).
Proof.
  induction fuel as [|fuel IH]; intros n res Hinv Hfuel.
  - simpl. destruct (Z.ltb_spec (Z.of_nat (length res)) n); [lia|].
    exists res. repeat split; try apply Hinv. lia.
  - simpl. destruct (Z.ltb_spec (Z.of_nat (length res)) n) as [Hlt|Hge].
    + destruct (IH n _ (fib_inv_push res Hinv)) as (res' & Hrun & Hinv' & Hlen).
      { rewrite length_app. simpl. lia. }
      exists res'. split; [exact Hrun|]. split; [exact Hinv'|].
      rewrite Hlen, length_app. simpl. lia.
    + exists res. repeat split; try apply Hinv. lia.
Qed.

Lemma fib_inv_init : fib_inv [0; 1].
Proof.
  unfold fib_inv. simpl. repeat split; try lia.
Qed.

Lemma fibSeries_inv n :
  2 <= n ->
  exists res, fibSeries n = Some res /\ fib_inv res /\
              Z.of_nat (length res) = n.
Proof.
  intros Hn. unfold fibSeries.
  destruct (Z.leb_spec n 0); [lia|]. destruct (Z.eqb_spec n 1); [lia|].
  destruct (fib_while_spec (Z.to_nat n) n [0; 1] fib_inv_init)
    as (res & Hrun & Hinv & Hlen); [simpl; lia|].
  exists res. split; [exact Hrun|]. split; [exact Hinv|].
  rewrite Hlen. simpl. lia.
Qed.

(** Two runs of the loop agree on their common indices. *)
Lemma fib_inv_agree r1 r2 :
  fib_inv r1 -> fib_inv r2 ->
  forall i, (i < length r1)%nat -> (i < length r2)%nat ->
    nth i r1 0 = nth i r2 0.
Proof.
  intros (L1 & A0 & A1 & Ar) (L2 & B0 & B1 & Br) i.
  induction i as [i IH] using lt_wf_ind. intros H1 H2.
  destruct i as [|[|i]]; [congruence|congruence|].
  rewrite Ar, Br by lia. rewrite !IH by lia. reflexivity.
Qed.

Lemma fibSeries_79_exact :
  match fibSeries 79 with
  | Some res => sums_exact res = true
  | None => False
  end.
Proof. vm_compute. reflexivity. Qed.

Lemma sums_exact_nth res i :
  sums_exact res = true -> (2 <= i < length res)%nat ->
  nth i res 0 = nth (i - 1) res 0 + nth (i - 2) res 0.
Proof.
  unfold sums_exact. rewrite forallb_forall. intros H Hi.
  apply Z.eqb_eq, H, in_seq. lia.
Qed.

(** C3, as the code has it.  For every integer n in [1,1000],
    [fibSeries n] returns a sequence of length exactly n whose first
    element is 0, whose second element (when n >= 2) is 1, and in which
    every element after the second is the double-precision sum of the
    two preceding elements; up to index 78, that is, in the whole
    sequence when n <= 79, it is their exact sum. *)
Theorem fibSeries_spec (n : Z) :
  1 <= n <= 1000 ->
  exists res,
    fibSeries n = Some res /\
    Z.of_nat (length res) = n /\
    at_index res 0 = 0 /\
    (2 <= n -> at_index res 1 = 1) /\
    (forall i, 2 <= i < n ->
       at_index res i
       = JSNum.add (at_index res (i - 1)) (at_index res (i - 2))) /\
    (forall i, 2 <= i < n -> i <= 78 ->
       at_index res i = at_index res (i - 1) + at_index res (i - 2)).
Proof.
  intros Hn. destruct (Z.eq_dec n 1) as [->|Hne].
  - exists [0]. repeat split; try reflexivity; intros; lia.
  - destruct (fibSeries_inv n ltac:(lia)) as (res & Hrun & Hinv & Hlen).
    exists res. split; [exact Hrun|]. split; [exact Hlen|].
    pose proof Hinv as (L & H0 & H1 & Hrec).
    split; [exact H0|]. split; [intros _; exact H1|].
    assert (Hidx : forall i, 2 <= i < n ->
              (2 <= Z.to_nat i < length res)%nat /\
              Z.to_nat (i - 1) = (Z.to_nat i - 1)%nat /\
              Z.to_nat (i - 2) = (Z.to_nat i - 2)%nat) by (intros; lia).
    split.
    + intros i Hi. destruct (Hidx i Hi) as (Hin & E1 & E2).
      unfold at_index. rewrite E1, E2. apply Hrec, Hin.
    + intros i Hi H78. destruct (Hidx i Hi) as (Hin & E1 & E2).
      pose proof fibSeries_79_exact as Hex.
      destruct (fibSeries_inv 79 ltac:(lia)) as (r79 & Hrun79 & Hinv79 & Hlen79).
      rewrite Hrun79 in Hex.
      unfold at_index. rewrite E1, E2.
      rewrite !(fib_inv_agree res r79 Hinv Hinv79) by lia.
      apply sums_exact_nth; [exact Hex|lia].
Qed.

Lemma fibSeries_spec_witness :
  1 <= 10 <= 1000 /\
  exists res,
    fibSeries 10 = Some res /\
    Z.of_nat (length res) = 10 /\
    at_index res 0 = 0 /\
    (2 <= 10 -> at_index res 1 = 1) /\
    (forall i, 2 <= i < 10 ->
       at_index res i
       = JSNum.add (at_index res (i - 1)) (at_index res (i - 2))) /\
    (forall i, 2 <= i < 10 -> i <= 78 ->
       at_index res i = at_index res (i - 1) + at_index res (i - 2)).
Proof.
  assert (H : 1 <= 10 <= 1000) by lia.
  split; [exact H|exact (fibSeries_spec 10 H)].
Defined.

(** C3 as stated fails from n = 80 on: the element at index 79 is the
    sum 8944394323791464 + 5527939700884757 = 14472334024676221 rounded
    to a double, 14472334024676220. *)
Lemma fibSeries_80_not_exact :
  exists res,
    fibSeries 80 = Some res /\
    at_index res 77 = 5527939700884757 /\
    at_index res 78 = 8944394323791464 /\
    at_index res 79 = 14472334024676220 /\
    at_index res 79 <> at_index res 78 + at_index res 77.
Proof.
  destruct (fibSeries 80) as [res|] eqn:E; [|vm_compute in E; discriminate].
  exists res. split; [reflexivity|].
  assert (E' : Some res = fibSeries 80) by (symmetry; exact E).
  vm_compute in E'. injection E' as ->.
  repeat split; try reflexivity. vm_compute. discriminate.
Qed.

(** No element of a sequence of at most 1000 terms reaches 2^1024: the
    additions stay in the range where rounding is all that happens. *)
Lemma fibSeries_1000_finite :
  match fibSeries 1000 with
  | Some res => forallb (fun x => (0 <=? x) && (x <? 2 ^ 1024)) res = true
  | None => False
  end.
Proof. vm_compute. reflexivity. Qed.

(** ** Primality *)

Lemma pow4 j : 0 <= j -> 4 ^ j = (2 ^ j) * (2 ^ j).
Proof.
  intros Hj. change 4 with (2 ^ 2). rewrite <- Z.pow_mul_r by lia.
  replace (2 * j) with (j + j) by lia. apply Z.pow_add_r; lia.
Qed.

(** The floor of the rounded square root is the integer square root or
    one more. *)
Lemma floor_sqrt_bounds x :
  1 <= x < 2 ^ 53 ->
  Z.sqrt x <= JSNum.floor_sqrt x <= Z.sqrt x + 1.
Proof.
  intros Hx. unfold JSNum.floor_sqrt.
  set (s := Z.sqrt x).
  assert (Hs : s * s <= x < (s + 1) * (s + 1)).
  { pose proof (Z.sqrt_spec x ltac:(lia)) as H. unfold Z.succ in H. exact H. }
  assert (Hs1 : 1 <= s) by (unfold s; apply Z.sqrt_le_square; lia).
  assert (Hs27 : s < 2 ^ 27).
  { apply Z.sqrt_lt_square; [lia|lia|]. change (2 ^ 27 * 2 ^ 27) with (2 ^ 54). lia. }
  assert (Hk : Z.log2 s < 27) by (apply Z.log2_lt_pow2; lia).
  pose proof (Z.log2_nonneg s) as Hk0.
  destruct (Z.leb_spec (Z.log2 s) 52) as [_|]; [|lia].
  set (j := 52 - Z.log2 s).
  assert (Hj : 0 <= j) by (unfold j; lia).
  rewrite pow4 by exact Hj.
  set (P := 2 ^ j).
  assert (HP : 0 < P) by (apply Z.pow_pos_nonneg; lia).
  set (m := Z.sqrt (x * (P * P))).
  assert (Hm : m * m <= x * (P * P) < (m + 1) * (m + 1)).
  { pose proof (Z.sqrt_spec (x * (P * P)) ltac:(nia)) as H.
    unfold Z.succ in H. exact H. }
  assert (Hm0 : 0 <= m) by apply Z.sqrt_nonneg.
  assert (Hlo : s * P <= m) by nia.
  assert (Hhi : m + 1 <= (s + 1) * P) by nia.
  destruct (_ <? _).
  - split.
    + apply Z.div_le_lower_bound; [exact HP|]. nia.
    + apply Z.div_le_upper_bound; [exact HP|]. nia.
  - split.
    + apply Z.div_le_lower_bound; [exact HP|]. nia.
    + apply Z.div_le_upper_bound; [exact HP|]. nia.
Qed.

(** The trial-division loop, started at [i] with enough fuel to reach
    [r]: it answers, and answers [true] exactly when none of
    [i, i+2, i+4, ...] up to [r] divides [x]. *)
Lemma trial_loop_spec fuel : forall x r i,
  0 < i -> r < 2 ^ 52 ->
  r - i + 1 <= Z.of_nat fuel ->
  exists b, trial_loop fuel x r i = Some b /\
    (b = true <->
     forall t, 0 <= t -> i + 2 * t <= r -> ~ (i + 2 * t | x)).
Proof.
  induction fuel as [|fuel IH]; intros x r i Hi Hr Hfuel.
  - simpl. destruct (Z.leb_spec i r); [lia|].
    exists true. split; [reflexivity|]. split; [|reflexivity].
    intros _ t Ht Hle. lia.
  - simpl. destruct (Z.leb_spec i r) as [Hle|Hgt].
    + unfold JSNum.rem.
      destruct (Z.eqb_spec (Z.rem x i) 0) as [E|E].
      * exists false. split; [reflexivity|]. split; [discriminate|].
        intros H. exfalso. apply (H 0); [lia|lia|].
        rewrite Z.mul_0_r, Z.add_0_r. apply Z.rem_divide; [lia|exact E].
      * rewrite JSNumFacts.add_exact by lia.
        destruct (IH x r (i + 2) ltac:(lia) Hr ltac:(lia)) as (b & Hrun & Hb).
        exists b. split; [exact Hrun|]. rewrite Hb. split.
        -- intros H t Ht Hle'. destruct (Z.eq_dec t 0) as [->|Hne].
           ++ rewrite Z.mul_0_r, Z.add_0_r. intros Hd.
              apply E, Z.rem_divide; [lia|exact Hd].
           ++ replace (i + 2 * t) with (i + 2 + 2 * (t - 1)) by lia.
              apply H; lia.
        -- intros H t Ht Hle'.
           replace (i + 2 + 2 * t) with (i + 2 * (t + 1)) by lia.
           apply H; lia.
    + exists true. split; [reflexivity|]. split; [|reflexivity].
      intros _ t Ht Hle. lia.
Qed.

(** An odd number above 3 is prime exactly when no odd number from 3 up
    to a bound between its square root and itself divides it. *)
Lemma odd_trial_prime x r :
  3 < x -> Z.odd x = true -> Z.sqrt x <= r < x ->
  ((forall d, 3 <= d <= r -> Z.odd d = true -> ~ (d | x)) <-> Z.prime x).
Proof.
  intros Hx Hodd Hr. split.
  - intros Hno. split; [lia|]. intros n Hn [m Em].
    assert (Hm : 1 < m < x) by nia.
    pose proof (Z.sqrt_spec x ltac:(lia)) as Hs. unfold Z.succ in Hs.
    assert (Hodd_div : forall d, (d | x) -> Z.odd d = true).
    { intros d [q Eq]. rewrite Eq, Z.odd_mul in Hodd.
      apply andb_true_iff in Hodd. apply Hodd. }
    assert (Hon : Z.odd n = true) by (apply Hodd_div; exists m; exact Em).
    assert (Hom : Z.odd m = true) by (apply Hodd_div; exists n; lia).
    assert (n <> 2) by (intros ->; discriminate).
    assert (m <> 2) by (intros ->; discriminate).
    assert (Hsmall : n <= Z.sqrt x \/ m <= Z.sqrt x) by nia.
    destruct Hsmall as [Hs'|Hs'].
    + apply (Hno n); [lia|exact Hon|exists m; exact Em].
    + apply (Hno m); [lia|exact Hom|exists n; lia].
  - intros [_ Hp] d Hd _ Hdiv. apply (Hp d); [lia|exact Hdiv].
Qed.

Lemma odd_steps d :
  3 <= d -> Z.odd d = true -> exists t, 0 <= t /\ d = 3 + 2 * t.
Proof.
  intros Hd Ho. apply Z.odd_spec in Ho. destruct Ho as [m Em].
  exists (m - 1). lia.
Qed.

Lemma isPrimeNum_odd x :
  JSNum.representable x -> 3 < x -> Z.odd x = true ->
  exists b, isPrimeNum x = Some b /\
    (b = true <->
     forall d, 3 <= d <= Z.sqrt x -> Z.odd d = true -> ~ (d | x)) /\
    (b = true <-> Z.prime x).
Proof.
  intros Hrep Hx Hodd.
  pose proof (JSNumFacts.representable_odd x Hrep Hodd) as Hsmall.
  pose proof (floor_sqrt_bounds x ltac:(lia)) as Hr.
  set (r := JSNum.floor_sqrt x) in *.
  pose proof (Z.sqrt_spec x ltac:(lia)) as Hs. unfold Z.succ in Hs.
  pose proof (Z.sqrt_nonneg x) as Hs0.
  assert (Hs27 : Z.sqrt x < 2 ^ 27).
  { apply Z.sqrt_lt_square; [lia|lia|].
    change (2 ^ 27 * 2 ^ 27) with (2 ^ 54). lia. }
  assert (Hrx : r < x) by nia.
  destruct (trial_loop_spec (Z.to_nat r) x r 3 ltac:(lia) ltac:(lia) ltac:(lia))
    as (b & Hrun & Hb).
  assert (Hodd_r : b = true <->
            forall d, 3 <= d <= r -> Z.odd d = true -> ~ (d | x)).
  { rewrite Hb. split.
    - intros H d Hd Ho. destruct (odd_steps d ltac:(lia) Ho) as (t & Ht & ->).
      apply H; lia.
    - intros H t Ht Hle. apply H; [lia|].
      rewrite Z.odd_add, Z.odd_mul. reflexivity. }
  exists b. split.
  - unfold isPrimeNum.
    destruct (Z.leb_spec x 1); [lia|]. destruct (Z.leb_spec x 3); [lia|].
    unfold JSNum.rem. rewrite Z.rem_mod_nonneg by lia.
    rewrite Zodd_mod in Hodd. apply Z.eqb_eq in Hodd. rewrite Hodd. simpl.
    exact Hrun.
  - rewrite Hodd_r.
    rewrite (odd_trial_prime x r Hx Hodd ltac:(lia)).
    rewrite (odd_trial_prime x (Z.sqrt x) Hx Hodd ltac:(lia)).
    split; reflexivity.
Qed.

Lemma even_not_prime x : 2 < x -> Z.even x = true -> ~ Z.prime x.
Proof.
  intros Hx He [_ Hp]. apply Z.even_spec in He. destruct He as [m Em].
  apply (Hp 2); [lia|]. exists m. lia.
Qed.

(** [isPrimeNum] answers on every integer a Number can hold, and answers
    whether it is prime. *)
Lemma isPrimeNum_prime x :
  JSNum.representable x ->
  exists b, isPrimeNum x = Some b /\ (b = true <-> Z.prime x).
Proof.
  intros Hrep.
  destruct (Z.le_gt_cases x 1) as [H1|H1].
  - exists false. split.
    + unfold isPrimeNum. destruct (Z.leb_spec x 1); [reflexivity|lia].
    + split; [discriminate|]. intros [Hp _]. lia.
  - destruct (Z.le_gt_cases x 3) as [H3|H3].
    + exists true. split.
      * unfold isPrimeNum. destruct (Z.leb_spec x 1); [lia|].
        destruct (Z.leb_spec x 3); [reflexivity|lia].
      * split; [|reflexivity]. intros _.
        assert (x = 2 \/ x = 3) as [->| ->] by lia;
          [apply Z.prime_2|apply Z.prime_3].
    + destruct (Z.odd x) eqn:Hodd.
      * destruct (isPrimeNum_odd x Hrep H3 Hodd) as (b & Hrun & _ & Hb).
        exists b. split; assumption.
      * exists false. split.
        -- unfold isPrimeNum. destruct (Z.leb_spec x 1); [lia|].
           destruct (Z.leb_spec x 3); [lia|].
           unfold JSNum.rem. rewrite Z.rem_mod_nonneg by lia.
           rewrite Zodd_mod in Hodd. apply Z.eqb_neq in Hodd.
           pose proof (Z.mod_pos_bound x 2 ltac:(lia)).
           destruct (Z.eqb_spec (x mod 2) 0); [reflexivity|lia].
        -- split; [discriminate|]. intros Hp. exfalso.
           apply (even_not_prime x); [lia| |exact Hp].
           rewrite <- Z.negb_odd, Hodd. reflexivity.
Qed.

(** C4.  For every integer x (that a Number holds), [isPrimeNum x]
    returns true if and only if x is prime; it returns false for all
    x <= 1, true for 2 and 3, false for every even x > 2, and otherwise
    true exactly when no odd integer in [3, floor(sqrt(x))] divides x; in
    particular isPrimeNum(1) = false, isPrimeNum(2) = true and
    isPrimeNum(9) = false. *)
Theorem isPrimeNum_trial_division :
  (forall x, JSNum.representable x ->
     exists b, isPrimeNum x = Some b /\
       (b = true <-> Z.prime x) /\
       (x <= 1 -> b = false) /\
       (x = 2 \/ x = 3 -> b = true) /\
       (2 < x -> Z.even x = true -> b = false) /\
       (3 < x -> Z.odd x = true ->
        (b = true <->
         forall d, 3 <= d <= Z.sqrt x -> Z.odd d = true -> ~ (d | x)))) /\
  isPrimeNum 1 = Some false /\
  isPrimeNum 2 = Some true /\
  isPrimeNum 9 = Some false.
Proof.
  split; [|repeat split; reflexivity].
  intros x Hrep.
  destruct (isPrimeNum_prime x Hrep) as (b & Hrun & Hb).
  exists b. split; [exact Hrun|]. split; [exact Hb|].
  split; [|split; [|split]].
  - intros Hx. destruct b; [|reflexivity].
    destruct (proj1 Hb eq_refl) as [Hp _]. lia.
  - intros [-> | ->]; apply Hb; [apply Z.prime_2|apply Z.prime_3].
  - intros Hx He. destruct b; [|reflexivity]. exfalso.
    apply (even_not_prime x Hx He), Hb. reflexivity.
  - intros Hx Ho.
    destruct (isPrimeNum_odd x Hrep Hx Ho) as (b' & Hrun' & Hb' & _).
    rewrite Hrun in Hrun'. injection Hrun' as <-. exact Hb'.
Qed.

Lemma isPrimeNum_trial_division_witness :
  JSNum.representable 7919 /\
  exists b, isPrimeNum 7919 = Some b /\
    (b = true <-> Z.prime 7919) /\
    (7919 <= 1 -> b = false) /\
    (7919 = 2 \/ 7919 = 3 -> b = true) /\
    (2 < 7919 -> Z.even 7919 = true -> b = false) /\
    (3 < 7919 -> Z.odd 7919 = true ->
     (b = true <->
      forall d, 3 <= d <= Z.sqrt 7919 -> Z.odd d = true -> ~ (d | 7919))).
Proof.
  assert (H : JSNum.representable 7919) by reflexivity.
  split; [exact H|exact (proj1 isPrimeNum_trial_division 7919 H)].
Defined.

(** ** Rate limiter *)

Section RateLimiterFacts.

Context (OFFICIAL_EMAIL : option jsstring).

Local Abbreviation limiter := (rateLimiter OFFICIAL_EMAIL).
Local Abbreviation reject := (too_many OFFICIAL_EMAIL).

Lemma window_test now t0 :
  (RATE_WINDOW_MS <? JSNum.sub now t0) = (RATE_WINDOW_MS <? now - t0).
Proof.
  unfold JSNum.sub.
  pose proof (JSNumFacts.round53_gt RATE_WINDOW_MS (now - t0)) as H.
  unfold RATE_WINDOW_MS in *.
  destruct (Z.ltb_spec (60 * 1000) (JSNum.round53 (now - t0)));
    destruct (Z.ltb_spec (60 * 1000) (now - t0)); try reflexivity; lia.
Qed.

(** One request inside the window of its client. *)
Lemma rateLimiter_in_window rateMap req now ip e :
  client_key req = Some ip -> rateMap !! ip = Some e ->
  now - start e <= RATE_WINDOW_MS ->
  limiter rateMap req now
  = (<[ip := {| count := JSNum.add (count e) 1; start := start e |}]> rateMap,
     verdict OFFICIAL_EMAIL (JSNum.add (count e) 1)).
Proof.
  intros Hk He Hw. unfold rateLimiter, verdict. rewrite Hk, He, window_test.
  destruct (Z.ltb_spec RATE_WINDOW_MS (now - start e)); [lia|]. simpl.
  destruct (_ <? _); reflexivity.
Qed.

(** The first request of a client, or one that arrives after its
    window has run out. *)
Lemma rateLimiter_opens rateMap req now ip :
  client_key req = Some ip ->
  (rateMap !! ip = None \/
   exists e, rateMap !! ip = Some e /\ RATE_WINDOW_MS < now - start e) ->
  limiter rateMap req now
  = (<[ip := {| count := 1; start := now |}]> rateMap, Next).
Proof.
  intros Hk Hnew. unfold rateLimiter. rewrite Hk, window_test.
  destruct Hnew as [Hnone|(e & He & Hlate)].
  - rewrite Hnone. simpl. rewrite Z.sub_diag. reflexivity.
  - rewrite He. destruct (Z.ltb_spec RATE_WINDOW_MS (now - start e)); [|lia].
    reflexivity.
Qed.

(** A request leaves the entries of the other clients alone. *)
Lemma rateLimiter_other rateMap req now ip :
  client_key req <> Some ip ->
  (limiter rateMap req now).1 !! ip = rateMap !! ip.
Proof.
  intros Hk. unfold rateLimiter.
  destruct (client_key req) as [ip'|]; [|reflexivity].
  destruct (_ <? _); simpl; apply lookup_insert_ne; congruence.
Qed.

Lemma counted_next j c :
  0 <= j -> counted j c -> counted (j + 1) (JSNum.add c 1).
Proof.
  intros Hj [->|[Hc Hj']].
  - destruct (Z.lt_ge_cases j (2 ^ 53)).
    + left. apply JSNumFacts.add_exact. lia.
    + right. split; [|lia]. unfold JSNum.add, JSNum.round53.
      pose proof (JSNumFacts.rnd53_lower (Z.abs (j + 1)) ltac:(lia)).
      destruct (Z.sgn_spec (j + 1)) as [[? ->]|[[? ->]|[? ->]]]; lia.
  - right. split; [|lia]. unfold JSNum.add, JSNum.round53.
    pose proof (JSNumFacts.rnd53_lower (Z.abs (c + 1)) ltac:(lia)).
    destruct (Z.sgn_spec (c + 1)) as [[? ->]|[[? ->]|[? ->]]]; lia.
Qed.

Lemma verdict_counted j c :
  counted j c -> verdict OFFICIAL_EMAIL c = verdict OFFICIAL_EMAIL j.
Proof.
  intros [->|[Hc Hj]]; [reflexivity|]. unfold verdict, RATE_LIMIT.
  destruct (Z.ltb_spec 120 c); destruct (Z.ltb_spec 120 j); try reflexivity; lia.
Qed.

(** A window in progress: after [j] requests of the window that began
    at [t0], the outcomes of the further requests of the client are the
    verdicts for [j+1, j+2, ...], whatever the other clients do. *)
Lemma serve_in_window ip t0 requests : forall rateMap j c,
  0 <= j -> counted j c ->
  rateMap !! ip = Some {| count := c; start := t0 |} ->
  in_window ip t0 requests ->
  exists c' final,
    serve OFFICIAL_EMAIL ip rateMap requests
    = (verdicts OFFICIAL_EMAIL j (requests_of ip requests), final) /\
    counted (j + Z.of_nat (requests_of ip requests)) c' /\
    final !! ip = Some {| count := c'; start := t0 |}.
Proof.
  induction requests as [|[req now] rest IH]; intros rateMap j c Hj Hc Hm Hw.
  - exists c, rateMap. cbn [serve requests_of verdicts].
    rewrite Z.add_0_r. auto.
  - assert (Hw' : in_window ip t0 rest).
    { intros r n Hin. apply Hw. right. exact Hin. }
    cbn [serve requests_of].
    destruct (bool_decide_reflect (client_key req = Some ip)) as [Hk|Hk].
    + pose proof (rateLimiter_in_window rateMap req now ip _ Hk Hm) as Hstep.
      cbn [count start] in Hstep.
      rewrite Hstep by (apply (Hw req now); [left; reflexivity|exact Hk]).
      destruct (IH (<[ip := {| count := JSNum.add c 1; start := t0 |}]> rateMap)
                  (j + 1) (JSNum.add c 1) ltac:(lia) (counted_next j c Hj Hc)
                  (lookup_insert_eq _ _ _) Hw') as (c' & final & Hrun & Hc' & Hfin).
      rewrite Hrun. exists c', final. split; [|split].
      * cbn [verdicts]. f_equal. f_equal.
        apply verdict_counted, counted_next; assumption.
      * rewrite Nat2Z.inj_succ.
        replace (j + Z.succ (Z.of_nat (requests_of ip rest)))
          with (j + 1 + Z.of_nat (requests_of ip rest)) by lia.
        exact Hc'.
      * exact Hfin.
    + pose proof (rateLimiter_other rateMap req now ip Hk) as Hoth.
      destruct (rateLimiter OFFICIAL_EMAIL rateMap req now) as [rateMap' o] eqn:El.
      cbn [fst] in Hoth. rewrite Hm in Hoth.
      destruct (IH rateMap' j c Hj Hc Hoth Hw') as (c' & final & Hrun & Hc' & Hfin).
      rewrite Hrun. exists c', final. auto.
Qed.

Lemma verdicts_length j k : length (verdicts OFFICIAL_EMAIL j k) = k.
Proof. revert j. induction k as [|k IH]; intros j; simpl; [|rewrite IH]; reflexivity. Qed.

Lemma verdicts_nth k : forall j i o,
  nth_error (verdicts OFFICIAL_EMAIL j k) i = Some o ->
  o = verdict OFFICIAL_EMAIL (j + Z.of_nat i + 1).
Proof.
  induction k as [|k IH]; intros j i o H; [destruct i; discriminate|].
  destruct i as [|i]; simpl in H.
  - injection H as <-. f_equal. lia.
  - apply IH in H. rewrite H. f_equal. lia.
Qed.

Lemma above_limit_next c : RATE_LIMIT < c -> RATE_LIMIT < JSNum.add c 1.
Proof.
  unfold RATE_LIMIT. intros Hc.
  apply (JSNumFacts.round53_gt 120 (c + 1)); lia.
Qed.

(** Once the count is above the limit, the further requests of the
    client inside the window are all rejected. *)
Lemma serve_rejecting ip t0 requests : forall rateMap c,
  RATE_LIMIT < c ->
  rateMap !! ip = Some {| count := c; start := t0 |} ->
  in_window ip t0 requests ->
  exists c' final,
    serve OFFICIAL_EMAIL ip rateMap requests
    = (repeat reject (requests_of ip requests), final) /\
    RATE_LIMIT < c' /\
    final !! ip = Some {| count := c'; start := t0 |}.
Proof.
  induction requests as [|[req now] rest IH]; intros rateMap c Hc Hm Hw.
  - exists c, rateMap. auto.
  - assert (Hw' : in_window ip t0 rest).
    { intros r n Hin. apply Hw. right. exact Hin. }
    cbn [serve requests_of].
    destruct (bool_decide_reflect (client_key req = Some ip)) as [Hk|Hk].
    + pose proof (rateLimiter_in_window rateMap req now ip _ Hk Hm) as Hstep.
      cbn [count start] in Hstep.
      rewrite Hstep by (apply (Hw req now); [left; reflexivity|exact Hk]).
      pose proof (above_limit_next c Hc) as Hc1.
      destruct (IH (<[ip := {| count := JSNum.add c 1; start := t0 |}]> rateMap)
                  (JSNum.add c 1) Hc1 (lookup_insert_eq _ _ _) Hw')
        as (c' & final & Hrun & Hc' & Hfin).
      rewrite Hrun. exists c', final. split; [|auto].
      cbn [repeat]. unfold verdict.
      destruct (Z.ltb_spec RATE_LIMIT (JSNum.add c 1)); [reflexivity|lia].
    + pose proof (rateLimiter_other rateMap req now ip Hk) as Hoth.
      destruct (rateLimiter OFFICIAL_EMAIL rateMap req now) as [rateMap' o] eqn:El.
      cbn [fst] in Hoth. rewrite Hm in Hoth.
      destruct (IH rateMap' c Hc Hoth Hw') as (c' & final & Hrun & Hc' & Hfin).
      rewrite Hrun. exists c', final. auto.
Qed.

(** C1.  For every client identifier: a request that is the first of
    its client, or arrives strictly more than 60,000 ms after the
    window start, sets the entry to count 1 with the arrival time as
    the new window start and is admitted; of the requests of the client
    that then arrive within 60,000 ms of that window start, whatever
    other clients send in between, each one up to the 120th of the
    window is admitted and each one from the 121st on is rejected with
    HTTP 429. *)
Theorem rateLimiter_fixed_window rateMap req now ip :
  client_key req = Some ip ->
  (rateMap !! ip = None \/
   exists e, rateMap !! ip = Some e /\ RATE_WINDOW_MS < now - start e) ->
  rateLimiter OFFICIAL_EMAIL rateMap req now
  = (<[ip := {| count := 1; start := now |}]> rateMap, Next) /\
  forall requests,
    in_window ip now requests ->
    exists outcomes final,
      serve OFFICIAL_EMAIL ip
        (<[ip := {| count := 1; start := now |}]> rateMap) requests
      = (outcomes, final) /\
      length outcomes = requests_of ip requests /\
      forall i o, nth_error outcomes i = Some o ->
        (Z.of_nat i + 2 <= 120 -> o = Next) /\
        (120 < Z.of_nat i + 2 ->
         exists r, o = Respond r /\ status r = 429 /\
                   r = sendError OFFICIAL_EMAIL 429 (js "Too many requests")).
Proof.
  intros Hk Hnew. split; [apply rateLimiter_opens; assumption|].
  intros requests Hw.
  destruct (serve_in_window ip now requests
              (<[ip := {| count := 1; start := now |}]> rateMap) 1 1
              ltac:(lia) (or_introl eq_refl) (lookup_insert_eq _ _ _) Hw)
    as (c' & final & Hrun & _ & _).
  exists (verdicts OFFICIAL_EMAIL 1 (requests_of ip requests)), final.
  split; [exact Hrun|]. split; [apply verdicts_length|].
  intros i o Hnth. apply verdicts_nth in Hnth. subst o.
  unfold verdict, RATE_LIMIT, too_many. split.
  - intros Hle. destruct (Z.ltb_spec 120 (1 + Z.of_nat i + 1)); [lia|reflexivity].
  - intros Hgt. destruct (Z.ltb_spec 120 (1 + Z.of_nat i + 1)); [|lia].
    eexists. split; [reflexivity|]. split; reflexivity.
Qed.

(** C9.  A request that is rejected is counted like any other: a
    request that finds the count of its window above 120 is rejected
    with 429 and leaves it incremented; a rejection always leaves the
    count above 120; and from a count above 120 every further request
    of the client that arrives within 60,000 ms of the window start is
    rejected, so that within one window a client is never admitted
    again after it was first rejected. *)
Theorem rateLimiter_no_readmission rateMap req now ip :
  client_key req = Some ip ->
  (forall e, rateMap !! ip = Some e ->
     now - start e <= RATE_WINDOW_MS -> RATE_LIMIT < count e ->
     rateLimiter OFFICIAL_EMAIL rateMap req now
     = (<[ip := {| count := JSNum.add (count e) 1; start := start e |}]> rateMap,
        too_many OFFICIAL_EMAIL) /\
     RATE_LIMIT < JSNum.add (count e) 1 /\
     (count e < 2 ^ 53 -> JSNum.add (count e) 1 = count e + 1)) /\
  (forall rateMap' r,
     rateLimiter OFFICIAL_EMAIL rateMap req now = (rateMap', Respond r) ->
     status r = 429 /\
     exists e', rateMap' !! ip = Some e' /\ RATE_LIMIT < count e') /\
  (forall e requests,
     rateMap !! ip = Some e -> RATE_LIMIT < count e ->
     in_window ip (start e) requests ->
     exists final e',
       serve OFFICIAL_EMAIL ip rateMap requests
       = (repeat (too_many OFFICIAL_EMAIL) (requests_of ip requests), final) /\
       final !! ip = Some e' /\ RATE_LIMIT < count e' /\
       start e' = start e).
Proof.
  intros Hk. split; [|split].
  - intros e He Hw Hc.
    rewrite (rateLimiter_in_window rateMap req now ip e Hk He Hw).
    pose proof (above_limit_next _ Hc) as Hc1.
    split; [|split].
    + unfold verdict. destruct (Z.ltb_spec RATE_LIMIT (JSNum.add (count e) 1));
        [reflexivity|lia].
    + exact Hc1.
    + intros Hs. apply JSNumFacts.add_exact. unfold RATE_LIMIT in Hc. lia.
  - intros rateMap' r. unfold rateLimiter. rewrite Hk.
    match goal with |- context [<[ip := ?x]> rateMap] => set (entry := x) end.
    destruct (Z.ltb_spec RATE_LIMIT (count entry)) as [Hgt|Hle];
      intros H; [|discriminate].
    injection H as <- <-. split; [reflexivity|].
    exists entry. split; [apply lookup_insert_eq|exact Hgt].
  - intros [c t0] requests He Hc Hw. cbn [count start] in *.
    destruct (serve_rejecting ip t0 requests rateMap c Hc He Hw)
      as (c' & final & Hrun & Hc' & Hfin).
    exists final, {| count := c'; start := t0 |}. auto.
Qed.

End RateLimiterFacts.

(** ** Dispatcher *)

Lemma filter_primes_spec nums :
  Forall JSNum.representable nums ->
  exists ps, filter_primes nums = Some ps /\ primes_of nums ps.
Proof.
  induction 1 as [|x nums Hx _ (ps & Hrun & Hps)].
  - exists []. split; [reflexivity|constructor].
  - destruct (isPrimeNum_prime x Hx) as (b & Hb & Hprime).
    simpl. rewrite Hb, Hrun. destruct b.
    + exists (x :: ps). split; [reflexivity|].
      apply primes_of_keep; [apply Hprime; reflexivity|exact Hps].
    + exists ps. split; [reflexivity|].
      apply primes_of_drop; [|exact Hps].
      intros Hp. apply Hprime in Hp. discriminate.
Qed.

Lemma integers_numbers nums : integers (map number nums) = Some nums.
Proof.
  induction nums as [|x nums IH]; [reflexivity|].
  simpl. rewrite IH. reflexivity.
Qed.

Lemma integers_inv arr nums : integers arr = Some nums -> arr = map number nums.
Proof.
  revert nums. induction arr as [|v arr IH]; intros nums H.
  - injection H as <-. reflexivity.
  - simpl in H. destruct v as [| |[z|]| | |]; try discriminate.
    destruct (integers arr) as [zs|]; [|discriminate].
    injection H as <-. simpl. rewrite (IH zs eq_refl). reflexivity.
Qed.

Section DispatcherFacts.

Context (OFFICIAL_EMAIL GEMINI_API_KEY : option jsstring)
        (JSON_parse : jsstring -> option JSValue)
        (JSON_stringify : JSValue -> jsstring)
        (generateContent : jsstring -> option jsstring).

Local Abbreviation handler :=
  (bfhl OFFICIAL_EMAIL GEMINI_API_KEY JSON_parse JSON_stringify
        generateContent).
Local Abbreviation ok := (sendData OFFICIAL_EMAIL).
Local Abbreviation bad := (sendError OFFICIAL_EMAIL).

Hypothesis configured : nonempty OFFICIAL_EMAIL = true.

(** Comparisons between the key literals are decided by evaluation. *)
Ltac eval_keys :=
  repeat match goal with
    | |- context [str_eqb (js ?a) (js ?b)] =>
        let v := eval vm_compute in (str_eqb (js a) (js b)) in
        change (str_eqb (js a) (js b)) with v
    | |- context [includes allowedKeys (js ?a)] =>
        let v := eval vm_compute in (includes allowedKeys (js a)) in
        change (includes allowedKeys (js a)) with v
    end.

Ltac enter_handler :=
  unfold bfhl; rewrite configured; change (negb true) with false;
  cbv iota;
  cbn [truthy typeof_object negb orb Object_keys map fst get_named assoc];
  eval_keys; cbv iota; cbn [negb].

Lemma bfhl_key_fibonacci v :
  handler (Some (JObj [(js "fibonacci", v)]))
  = match isInteger (Some v) with
    | Some n =>
        if (n <=? 0) || (1000 <? n) then
          Some (bad 400 (js "fibonacci must be an integer in range 1..1000"))
        else
          match fibSeries n with
          | Some res => Some (ok (JArr (map number res)))
          | None => None
          end
    | None =>
        Some (bad 400 (js "fibonacci must be an integer in range 1..1000"))
    end.
Proof. enter_handler. reflexivity. Qed.

Lemma bfhl_key_prime v :
  handler (Some (JObj [(js "prime", v)]))
  = match v with
    | JArr (x :: xs) =>
        match integers (x :: xs) with
        | Some nums =>
            match filter_primes nums with
            | Some ps => Some (ok (JArr (map number ps)))
            | None => None
            end
        | None => Some (bad 400 (js "prime array must contain integers"))
        end
    | _ => Some (bad 400 (js "prime must be a non-empty array"))
    end.
Proof. enter_handler. reflexivity. Qed.

Lemma bfhl_key_hcf v :
  handler (Some (JObj [(js "hcf", v)]))
  = match v with
    | JArr (x :: xs) =>
        match integers (x :: xs) with
        | Some nums =>
            match gcdArray nums with
            | Some g => Some (ok (number g))
            | None =>
                Some (bad 400
                        (js "Reduce of empty array with no initial value"))
            end
        | None => Some (bad 400 (js "hcf array must contain integers"))
        end
    | _ => Some (bad 400 (js "hcf must be a non-empty array"))
    end.
Proof. enter_handler. reflexivity. Qed.

Lemma bfhl_key_lcm v :
  handler (Some (JObj [(js "lcm", v)]))
  = match v with
    | JArr (x :: xs) =>
        match integers (x :: xs) with
        | Some nums =>
            match lcmArray nums with
            | Some m => Some (ok (number m))
            | None =>
                Some (bad 400
                        (js "Reduce of empty array with no initial value"))
            end
        | None => Some (bad 400 (js "lcm array must contain integers"))
        end
    | _ => Some (bad 400 (js "lcm must be a non-empty array"))
    end.
Proof. enter_handler. reflexivity. Qed.

Lemma bfhl_key_AI v :
  handler (Some (JObj [(js "AI", v)]))
  = match v with
    | JStr question =>
        if bool_decide (trim question = []) then
          Some (bad 400 (js "AI must be a non-empty string"))
        else if negb (nonempty GEMINI_API_KEY) then
          Some (bad 503 (js "AI service not configured"))
        else
          match generateContent (js "Answer Question: " ++ question) with
          | Some content =>
              if bool_decide (content = []) then
                Some (bad 502 (js "AI service returned no answer"))
              else
                Some (ok (JStr (cleanAIContent JSON_parse JSON_stringify
                                  (trim content))))
          | None => Some (bad 502 (js "AI service error"))
          end
    | _ => Some (bad 400 (js "AI must be a non-empty string"))
    end.
Proof. enter_handler. reflexivity. Qed.

Lemma bfhl_other_key k v :
  includes allowedKeys k = false ->
  handler (Some (JObj [(k, v)]))
  = Some (bad 400 (js "Unsupported key provided")).
Proof.
  intros Hk. unfold bfhl. rewrite configured. change (negb true) with false.
  cbv iota. cbn [truthy typeof_object negb orb Object_keys map fst].
  rewrite Hk. reflexivity.
Qed.

Lemma includes_allowed k :
  includes allowedKeys k = true ->
  k = js "fibonacci" \/ k = js "prime" \/ k = js "lcm" \/ k = js "hcf"
  \/ k = js "AI".
Proof.
  unfold includes, allowedKeys, str_eqb. cbn [existsb].
  rewrite !orb_true_iff, !bool_decide_eq_true.
  intros H. decompose [or] H; subst; auto 10. discriminate.
Qed.

Lemma bfhl_validates body :
  valid_request body \/
  exists msg, In msg validation_messages /\ handler body = Some (bad 400 msg).
Proof.
  assert (Hmsg : forall msg r, In msg validation_messages ->
            r = Some (bad 400 msg) ->
            valid_request body \/
            exists msg, In msg validation_messages /\ r = Some (bad 400 msg)).
  { intros msg r Hin ->. right. exists msg. split; [exact Hin|reflexivity]. }
  destruct body as [[|b|x|s|items|props]|];
    try (apply (Hmsg (js "Invalid JSON body")); [simpl; tauto|];
         unfold bfhl; rewrite configured; destruct b; reflexivity);
    try (apply (Hmsg (js "Invalid JSON body")); [simpl; tauto|];
         unfold bfhl; rewrite configured; cbn; rewrite ?orb_true_r;
         reflexivity).
  - (* an array: its keys are its indices *)
    destruct items as [|i [|i2 rest]].
    + apply (Hmsg (js "Request must contain exactly one top-level key"));
        [simpl; tauto|]. unfold bfhl. rewrite configured. reflexivity.
    + apply (Hmsg (js "Unsupported key provided")); [simpl; tauto|].
      unfold bfhl. rewrite configured. reflexivity.
    + apply (Hmsg (js "Request must contain exactly one top-level key"));
        [simpl; tauto|]. unfold bfhl. rewrite configured. reflexivity.
  - destruct props as [|[k v] [|p2 rest]].
    + apply (Hmsg (js "Request must contain exactly one top-level key"));
        [simpl; tauto|]. unfold bfhl. rewrite configured. reflexivity.
    + destruct (includes allowedKeys k) eqn:Hk.
      * apply includes_allowed in Hk.
        destruct Hk as [->|[->|[->|[->| ->]]]].
        -- rewrite bfhl_key_fibonacci.
           destruct v as [| |[n|]| | |];
             try (apply (Hmsg (js "fibonacci must be an integer in range 1..1000"));
                  [simpl; tauto|reflexivity]).
           cbn [isInteger].
           destruct (Z.leb_spec n 0);
             [apply (Hmsg (js "fibonacci must be an integer in range 1..1000"));
              [simpl; tauto|reflexivity]|].
           destruct (Z.ltb_spec 1000 n);
             [apply (Hmsg (js "fibonacci must be an integer in range 1..1000"));
              [simpl; tauto|reflexivity]|].
           left. apply valid_fibonacci. lia.
        -- rewrite bfhl_key_prime.
           destruct v as [| | | |[|x xs]|];
             try (apply (Hmsg (js "prime must be a non-empty array"));
                  [simpl; tauto|reflexivity]).
           destruct (integers (x :: xs)) as [nums|] eqn:Hi.
           ++ left. apply integers_inv in Hi. rewrite Hi.
              destruct nums as [|z zs]; [discriminate|]. apply valid_prime.
           ++ apply (Hmsg (js "prime array must contain integers"));
                [simpl; tauto|reflexivity].
        -- rewrite bfhl_key_lcm.
           destruct v as [| | | |[|x xs]|];
             try (apply (Hmsg (js "lcm must be a non-empty array"));
                  [simpl; tauto|reflexivity]).
           destruct (integers (x :: xs)) as [nums|] eqn:Hi.
           ++ left. apply integers_inv in Hi. rewrite Hi.
              destruct nums as [|z zs]; [discriminate|]. apply valid_lcm.
           ++ apply (Hmsg (js "lcm array must contain integers"));
                [simpl; tauto|reflexivity].
        -- rewrite bfhl_key_hcf.
           destruct v as [| | | |[|x xs]|];
             try (apply (Hmsg (js "hcf must be a non-empty array"));
                  [simpl; tauto|reflexivity]).
           destruct (integers (x :: xs)) as [nums|] eqn:Hi.
           ++ left. apply integers_inv in Hi. rewrite Hi.
              destruct nums as [|z zs]; [discriminate|]. apply valid_hcf.
           ++ apply (Hmsg (js "hcf array must contain integers"));
                [simpl; tauto|reflexivity].
        -- rewrite bfhl_key_AI.
           destruct v as [| | |question| |];
             try (apply (Hmsg (js "AI must be a non-empty string"));
                  [simpl; tauto|reflexivity]).
           destruct (bool_decide_reflect (trim question = [])) as [Ht|Ht].
           ++ apply (Hmsg (js "AI must be a non-empty string"));
                [simpl; tauto|reflexivity].
           ++ left. apply valid_AI, Ht.
      * apply (Hmsg (js "Unsupported key provided")); [simpl; tauto|].
        apply bfhl_other_key, Hk.
    + apply (Hmsg (js "Request must contain exactly one top-level key"));
        [simpl; tauto|]. unfold bfhl. rewrite configured. reflexivity.
Qed.

(** C6.  For a configured service and every request body
    [{"prime": arr}] where [arr] is a non-empty array of integers, the
    response is successful and its data is the subsequence of [arr]
    consisting exactly of the elements that are prime, in input order
    and with their multiplicity; in particular the body
    [{"prime":[2,3,4,5,1]}] yields data [[2,3,5]]. *)
Theorem bfhl_prime_subsequence :
  (forall x nums,
     Forall JSNum.representable (x :: nums) ->
     exists ps r,
       handler (Some (JObj [(js "prime", JArr (map number (x :: nums)))]))
       = Some r /\
       status r = 200 /\ is_success (body r) = true /\
       data (body r) = Some (JArr (map number ps)) /\
       primes_of (x :: nums) ps) /\
  handler (Some (JObj [(js "prime", JArr (map number [2; 3; 4; 5; 1]))]))
  = Some (ok (JArr (map number [2; 3; 5]))).
Proof.
  split.
  - intros x nums Hrep.
    destruct (filter_primes_spec (x :: nums) Hrep) as (ps & Hrun & Hps).
    exists ps, (ok (JArr (map number ps))).
    rewrite bfhl_key_prime.
    change (map number (x :: nums)) with (number x :: map number nums).
    cbv iota. change (number x :: map number nums) with (map number (x :: nums)).
    rewrite integers_numbers, Hrun. auto.
  - rewrite bfhl_key_prime. reflexivity.
Qed.


(** C10.  On a single-element input [gcdArray [a] = a] and
    [lcmArray [a] = a], the element unchanged: the pairwise operators,
    and with them the absolute value, are never applied.  So for a
    configured service the bodies [{"hcf":[a]}] and [{"lcm":[a]}] are
    answered with data [a] itself, negative when [a] is: hcf of [-4]
    is -4. *)
Theorem single_element_unchanged :
  (forall a, gcdArray [a] = Some a /\ lcmArray [a] = Some a) /\
  (forall a,
     handler (Some (JObj [(js "hcf", JArr [number a])]))
     = Some (ok (number a)) /\
     handler (Some (JObj [(js "lcm", JArr [number a])]))
     = Some (ok (number a))) /\
  handler (Some (JObj [(js "hcf", JArr [number (-4)])]))
  = Some (ok (number (-4))).
Proof.
  split; [|split].
  - intros a. split; reflexivity.
  - intros a. rewrite bfhl_key_hcf, bfhl_key_lcm. split; reflexivity.
  - rewrite bfhl_key_hcf. reflexivity.
Qed.

End DispatcherFacts.

Lemma bfhl_prime_subsequence_witness :
  nonempty demo_email = true /\
  Forall JSNum.representable [7; 8; 7] /\
  exists ps r,
    demo_handler (Some (JObj [(js "prime", JArr (map number [7; 8; 7]))]))
    = Some r /\
    status r = 200 /\ is_success (body r) = true /\
    data (body r) = Some (JArr (map number ps)) /\
    primes_of [7; 8; 7] ps.
Proof.
  assert (Hc : nonempty demo_email = true) by reflexivity.
  assert (Hr : Forall JSNum.representable [7; 8; 7])
    by (repeat constructor).
  split; [exact Hc|]. split; [exact Hr|].
  exact (proj1 (bfhl_prime_subsequence demo_email None JSONText.parse
                  (fun _ => []) (fun _ => None) Hc) 7 [8; 7] Hr).
Defined.


Lemma single_element_unchanged_witness :
  nonempty demo_email = true /\
  demo_handler (Some (JObj [(js "hcf", JArr [number (-4)])]))
  = Some (sendData demo_email (number (-4))).
Proof.
  assert (Hc : nonempty demo_email = true) by reflexivity.
  split; [exact Hc|].
  exact (proj2 (proj2 (single_element_unchanged demo_email None
                         JSONText.parse (fun _ => []) (fun _ => None) Hc))).
Defined.

(** ** Sanitizer *)

Module RegexFacts.
Import Regex.


Local Abbreviation lbrace := 123%N.
Local Abbreviation rbrace := 125%N.



End RegexFacts.

Module FenceFacts.
Import Regex.

Local Abbreviation tick := 96%N.








End FenceFacts.

Section SanitizerFacts.

Context (JSON_parse : jsstring -> option JSValue)
        (JSON_stringify : JSValue -> jsstring).

Import Regex.

Local Abbreviation clean := (cleanAIContent JSON_parse JSON_stringify).
Local Abbreviation extract := (extractJson JSON_parse JSON_stringify).


(** Two runs of the sanitizer on texts without a brace: a fenced block
    is removed whole, and bold markers leave their inner text. *)
Example fence_removed :
  replace_all re_fence (Lit []) (js "a ```js code``` b") = js "a  b".
Proof. vm_compute. reflexivity. Qed.

Example bold_unwrapped :
  clean (js "**Paris** is the capital.") = js "Paris is the capital.".
Proof. vm_compute. reflexivity. Qed.

End SanitizerFacts.



Lemma rateLimiter_fixed_window_witness :
  client_key demo_request = Some demo_ip /\
  (∅ : gmap jsstring RateEntry) !! demo_ip = None /\
  in_window demo_ip 1000 [(demo_request, 2500)] /\
  rateLimiter demo_email ∅ demo_request 1000
  = (<[demo_ip := {| count := 1; start := 1000 |}]> ∅, Next) /\
  exists outcomes final,
    serve demo_email demo_ip
      (<[demo_ip := {| count := 1; start := 1000 |}]> ∅)
      [(demo_request, 2500)]
    = (outcomes, final) /\
    length outcomes = 1%nat.
Proof.
  assert (Hk : client_key demo_request = Some demo_ip) by reflexivity.
  assert (Hn : (∅ : gmap jsstring RateEntry) !! demo_ip = None)
    by apply lookup_empty.
  assert (Hw : in_window demo_ip 1000 [(demo_request, 2500)]).
  { intros req now [E|[]] _. injection E as <- <-. unfold RATE_WINDOW_MS. lia. }
  destruct (rateLimiter_fixed_window demo_email ∅ demo_request 1000 demo_ip
              Hk (or_introl Hn)) as [Hopen Hrest].
  destruct (Hrest _ Hw) as (outcomes & final & Hrun & Hlen & _).
  split; [exact Hk|]. split; [exact Hn|]. split; [exact Hw|].
  split; [exact Hopen|].
  exists outcomes, final. split; [exact Hrun|exact Hlen].
Defined.

Lemma rateLimiter_no_readmission_witness :
  client_key demo_request = Some demo_ip /\
  ({[demo_ip := {| count := 121; start := 0 |}]} : gmap jsstring RateEntry)
    !! demo_ip = Some {| count := 121; start := 0 |} /\
  10 - 0 <= RATE_WINDOW_MS /\ RATE_LIMIT < 121 /\
  rateLimiter demo_email {[demo_ip := {| count := 121; start := 0 |}]}
    demo_request 10
  = (<[demo_ip := {| count := JSNum.add 121 1; start := 0 |}]>
       {[demo_ip := {| count := 121; start := 0 |}]},
     too_many demo_email).
Proof.
  assert (Hk : client_key demo_request = Some demo_ip) by reflexivity.
  assert (Hm : ({[demo_ip := {| count := 121; start := 0 |}]}
                : gmap jsstring RateEntry) !! demo_ip
               = Some {| count := 121; start := 0 |})
    by apply lookup_singleton_eq.
  assert (Hw : 10 - 0 <= RATE_WINDOW_MS) by (unfold RATE_WINDOW_MS; lia).
  assert (Hc : RATE_LIMIT < 121) by (unfold RATE_LIMIT; lia).
  split; [exact Hk|]. split; [exact Hm|]. split; [exact Hw|].
  split; [exact Hc|].
  exact (proj1 (proj1 (rateLimiter_no_readmission demo_email _ demo_request 10
                         demo_ip Hk) _ Hm Hw Hc)).
Defined.

(** ** The replacement loop and its fuel *)

Module ReplaceFacts.
Import Regex.

(** The matcher hands its continuation a suffix of the input. *)
Lemma rep_suffix {A : Type} greedy p (k : cont A) s : forall min prev cap a,
  rep greedy p k min prev s cap = Some a ->
  exists prev' s' cap' pre, k prev' s' cap' = Some a /\ s = pre ++ s'.
Proof.
  induction s as [|c s IH]; intros min prev cap a H.
  - cbn [rep] in H.
    assert (Hk : match min with O => k prev [] cap | S _ => None end = Some a).
    { destruct greedy; [exact H|].
      destruct (match min with O => k prev [] cap | S _ => None end);
        [exact H|discriminate]. }
    destruct min; [|discriminate]. exists prev, [], cap, []. auto.
  - cbn [rep] in H.
    set (stop := match min with O => k prev (c :: s) cap | S _ => None end) in H.
    set (more := if p c then rep greedy p k (Nat.pred min) (Some c) s cap
                 else None) in H.
    assert (Hcase : more = Some a \/ stop = Some a).
    { destruct greedy.
      - destruct more; [left; exact H|right; exact H].
      - destruct stop; [right; exact H|left; exact H]. }
    destruct Hcase as [Hm|Hs].
    + unfold more in Hm. destruct (p c); [|discriminate].
      destruct (IH _ _ _ _ Hm) as (prev' & s' & cap' & pre & Hk & ->).
      exists prev', s', cap', (c :: pre). auto.
    + unfold stop in Hs. destruct min; [|discriminate].
      exists prev, (c :: s), cap, []. auto.
Qed.

Lemma run_suffix {A : Type} r : forall prev s cap (k : cont A) a,
  run r prev s cap k = Some a ->
  exists prev' s' cap' pre, k prev' s' cap' = Some a /\ s = pre ++ s'.
Proof.
  induction r as [p|greedy min p|r1 IH1 r2 IH2|r IH|];
    intros prev s cap k a H; cbn [run] in H.
  - destruct s as [|c s]; [discriminate|].
    destruct (p c); [|discriminate].
    exists (Some c), s, cap, [c]. auto.
  - eapply rep_suffix. exact H.
  - destruct (IH1 _ _ _ _ _ H) as (prev1 & s1 & cap1 & pre1 & H1 & ->).
    destruct (IH2 _ _ _ _ _ H1) as (prev2 & s2 & cap2 & pre2 & H2 & ->).
    exists prev2, s2, cap2, (pre1 ++ pre2). rewrite <- app_assoc. auto.
  - destruct (IH _ _ _ _ _ H) as (prev1 & s1 & cap1 & pre1 & H1 & ->).
    eexists _, _, _, pre1. split; [exact H1|reflexivity].
  - destruct (xorb _ _); [|discriminate].
    exists prev, s, cap, []. auto.
Qed.

Lemma match_here_splits r prev s f :
  match_here r prev s = Some f ->
  before f = [] /\ s = matched f ++ after f.
Proof.
  unfold match_here. intros H.
  destruct (run_suffix _ _ _ _ _ _ H) as (prev' & s' & cap' & pre & Hk & ->).
  injection Hk as <-. cbn [before matched after]. split; [reflexivity|].
  rewrite length_app.
  replace (length pre + length s' - length s')%nat with (length pre) by lia.
  rewrite take_app_length. reflexivity.
Qed.

(** A match splits the text into what is before it, the match, and
    what is after it. *)
Lemma search_splits r s : forall prev f,
  search r prev s = Some f -> s = before f ++ matched f ++ after f.
Proof.
  induction s as [|c s IH]; intros prev f H; cbn [search] in H.
  - destruct (match_here r prev []) as [f'|] eqn:E; [|discriminate].
    injection H as <-. apply match_here_splits in E as [-> E]. exact E.
  - destruct (match_here r prev (c :: s)) as [f'|] eqn:E.
    + injection H as <-. apply match_here_splits in E as [-> E]. exact E.
    + destruct (search r (Some c) s) as [f'|] eqn:E'; [|discriminate].
      injection H as <-. cbn [before matched after].
      rewrite (IH _ _ E') at 1. reflexivity.
Qed.

(** Any fuel above the length of the text gives the same result: the
    loop is never cut short. *)
Lemma replace_from_fuel r rp fuel1 : forall fuel2 prev s,
  (length s < fuel1)%nat -> (length s < fuel2)%nat ->
  replace_from fuel1 r rp prev s = replace_from fuel2 r rp prev s.
Proof.
  induction fuel1 as [|fuel1 IH]; intros fuel2 prev s H1 H2; [lia|].
  destruct fuel2 as [|fuel2]; [lia|].
  cbn [replace_from].
  destruct (search r prev s) as [f|] eqn:E; [|reflexivity].
  apply search_splits in E.
  assert (Hlen : length s
                 = (length (before f) + length (matched f) + length (after f))%nat).
  { rewrite E at 1. rewrite !length_app. lia. }
  f_equal. f_equal.
  destruct (matched f) as [|m ms] eqn:Em; destruct (after f) as [|c rest] eqn:Ea;
    try reflexivity.
  - f_equal. apply IH; simpl in Hlen |- *; lia.
  - apply IH; simpl in Hlen |- *; lia.
  - apply IH; simpl in Hlen |- *; lia.
Qed.

Lemma replace_all_fuel r rp s fuel :
  (length s < fuel)%nat ->
  replace_from fuel r rp None s = replace_all r rp s.
Proof. intros H. apply replace_from_fuel; [exact H|lia]. Qed.

End ReplaceFacts.

(** ** More on the kernels *)

Lemma Fib_rec n : Fib (S (S n)) = Fib (S n) + Fib n.
Proof.
  unfold Fib. simpl. destruct (fib_pair n) as [a b]. simpl. lia.
Qed.

Lemma fibSeries_79_Fib :
  match fibSeries 79 with
  | Some res =>
      forallb (fun i => nth i res 0 =? Fib i) (seq 0 79) = true
  | None => False
  end.
Proof. vm_compute. reflexivity. Qed.

Lemma fibSeries_any n :
  1 <= n ->
  exists res, fibSeries n = Some res /\ Z.of_nat (length res) = n /\
    (2 <= n -> fib_inv res) /\ (n = 1 -> res = [0]).
Proof.
  intros Hn. destruct (Z.eq_dec n 1) as [->|Hne].
  - exists [0]. split; [reflexivity|]. split; [reflexivity|].
    split; [intros; lia|reflexivity].
  - destruct (fibSeries_inv n ltac:(lia)) as (res & Hrun & Hinv & Hlen).
    exists res. split; [exact Hrun|]. split; [exact Hlen|].
    split; [intros _; exact Hinv|intros E; contradiction].
Qed.

(** X1.  The first 79 terms are the Fibonacci numbers themselves, and a
    shorter request returns the beginning of a longer one. *)
Theorem fibSeries_Fib_prefix :
  Fib 0 = 0 /\ Fib 1 = 1 /\ (forall k, Fib (S (S k)) = Fib (S k) + Fib k) /\
  forall n, 1 <= n <= 1000 ->
    exists res,
      fibSeries n = Some res /\
      (forall i, (i < length res)%nat -> (i <= 78)%nat -> nth i res 0 = Fib i) /\
      (forall m, n <= m <= 1000 ->
         exists res', fibSeries m = Some res' /\ res = take (Z.to_nat n) res').
Proof.
  split; [reflexivity|]. split; [reflexivity|]. split; [exact Fib_rec|].
  intros n Hn.
  destruct (fibSeries_any n ltac:(lia)) as (res & Hrun & Hlen & Hinv & Hone).
  exists res. split; [exact Hrun|].
  assert (Hhead : nth 0 res 0 = 0).
  { destruct (Z.eq_dec n 1) as [E|E]; [rewrite (Hone E); reflexivity|].
    apply Hinv. lia. }
  split.
  - intros i Hi H78.
    destruct (Z.eq_dec n 1) as [E|E].
    + rewrite (Hone E) in *. simpl in Hi. assert (i = 0%nat) as -> by lia.
      reflexivity.
    + pose proof fibSeries_79_Fib as Hex.
      destruct (fibSeries_inv 79 ltac:(lia)) as (r79 & Hrun79 & Hinv79 & Hlen79).
      rewrite Hrun79 in Hex. rewrite forallb_forall in Hex.
      rewrite (fib_inv_agree res r79 (Hinv ltac:(lia)) Hinv79) by lia.
      apply Z.eqb_eq, Hex, in_seq. lia.
  - intros m Hm.
    destruct (fibSeries_any m ltac:(lia)) as (res' & Hrun' & Hlen' & Hinv' & Hone').
    exists res'. split; [exact Hrun'|].
    apply nth_ext with (d := 0) (d' := 0).
    + rewrite length_take. lia.
    + intros i Hi.
      destruct (Z.eq_dec n 1) as [E|E].
      * rewrite (Hone E) in *. simpl in Hi. assert (i = 0%nat) as -> by lia.
        subst n. simpl.
        destruct (Z.eq_dec m 1) as [E'|E']; [rewrite (Hone' E'); reflexivity|].
        destruct res' as [|z res']; [simpl in Hlen'; lia|].
        simpl. symmetry. apply (Hinv' ltac:(lia)).
      * rewrite nth_firstn.
        destruct (Nat.ltb_spec i (Z.to_nat n)); [|lia].
        apply fib_inv_agree; [apply Hinv; lia|apply Hinv'; lia|lia|lia].
Qed.

Lemma fibSeries_Fib_prefix_witness :
  1 <= 5 <= 1000 /\
  exists res,
    fibSeries 5 = Some res /\
    (forall i, (i < length res)%nat -> (i <= 78)%nat -> nth i res 0 = Fib i) /\
    (forall m, 5 <= m <= 1000 ->
       exists res', fibSeries m = Some res' /\ res = take (Z.to_nat 5) res').
Proof.
  assert (H : 1 <= 5 <= 1000) by lia.
  split; [exact H|].
  exact (proj2 (proj2 (proj2 fibSeries_Fib_prefix)) 5 H).
Defined.

(** X2.  [gcd] is the greatest common divisor: non-negative, a divisor of
    both arguments, a multiple of every common divisor, and the same in
    both argument orders and under a change of sign. *)
Theorem gcd_greatest (a b : Z) :
  0 <= gcd a b /\ (gcd a b | a) /\ (gcd a b | b) /\
  (forall d, (d | a) -> (d | b) -> (d | gcd a b)) /\
  gcd a b = gcd b a /\ gcd (- a) b = gcd a b /\
  (gcd a b = 0 <-> a = 0 /\ b = 0).
Proof.
  rewrite !gcd_Zgcd.
  split; [apply Z.gcd_nonneg|]. split; [apply Z.gcd_divide_l|].
  split; [apply Z.gcd_divide_r|]. split; [intros d; apply Z.gcd_greatest|].
  split; [apply Z.gcd_comm|]. split; [apply Z.gcd_opp_l|].
  split.
  - intros E. split; [apply (Z.gcd_eq_0_l a b E)|apply (Z.gcd_eq_0_r a b E)].
  - intros [-> ->]. reflexivity.
Qed.

Lemma gcd_list_greatest l d : (forall z, In z l -> (d | z)) -> (d | gcd_list l).
Proof.
  induction l as [|x l IH]; intros H; simpl.
  - apply Z.divide_0_r.
  - apply Z.gcd_greatest; [apply H; left; reflexivity|].
    apply IH. intros z Hz. apply H. right. exact Hz.
Qed.

(** X3.  On two or more elements [gcdArray] returns the greatest common
    divisor of the whole array: non-negative, and a multiple of every
    integer that divides all the elements.  On the empty array the
    reduction throws. *)
Theorem gcdArray_greatest :
  gcdArray [] = None /\
  forall x y l,
    exists g, gcdArray (x :: y :: l) = Some g /\ 0 <= g /\
      (forall d, (forall z, In z (x :: y :: l) -> (d | z)) -> (d | g)) /\
      (g = 0 <-> forall z, In z (x :: y :: l) -> z = 0).
Proof.
  split; [reflexivity|]. intros x y l.
  exists (gcd_list (x :: y :: l)). split; [apply gcdArray_two|].
  split; [apply gcd_list_nonneg|]. split; [apply gcd_list_greatest|].
  split.
  - intros E z Hz. pose proof (gcd_list_divide _ z Hz) as Hd.
    rewrite E in Hd. apply Z.divide_0_l in Hd. exact Hd.
  - intros Hall.
    assert (Hd : (0 | gcd_list (x :: y :: l))).
    { apply gcd_list_greatest. intros z Hz. rewrite (Hall z Hz).
      apply Z.divide_0_r. }
    apply Z.divide_0_l in Hd. exact Hd.
Qed.

Lemma lcm_list_least l c : (forall z, In z l -> (z | c)) -> (lcm_list l | c).
Proof.
  induction l as [|x l IH]; intros H; simpl.
  - apply Z.divide_1_l.
  - apply Z.lcm_least; [apply H; left; reflexivity|].
    apply IH. intros z Hz. apply H. right. exact Hz.
Qed.

(** X4.  While the least common multiple of the array is at most 2^53,
    [lcmArray] on two or more elements returns exactly it: non-negative,
    and a divisor of every common multiple of the elements. *)
Theorem lcmArray_least x y l :
  lcm_list (x :: y :: l) <= 2 ^ 53 ->
  exists m, lcmArray (x :: y :: l) = Some m /\ 0 <= m /\
    m = lcm_list (x :: y :: l) /\
    (forall c, (forall z, In z (x :: y :: l) -> (z | c)) -> (m | c)).
Proof.
  intros Hle. exists (lcm_list (x :: y :: l)).
  split; [apply lcmArray_two, Hle|]. split; [apply lcm_list_nonneg|].
  split; [reflexivity|apply lcm_list_least].
Qed.

Lemma lcmArray_least_witness :
  lcm_list [4; -6; 10] <= 2 ^ 53 /\
  exists m, lcmArray [4; -6; 10] = Some m /\ 0 <= m /\
    m = lcm_list [4; -6; 10] /\
    (forall c, (forall z, In z [4; -6; 10] -> (z | c)) -> (m | c)).
Proof.
  assert (H : lcm_list [4; -6; 10] <= 2 ^ 53) by (vm_compute; discriminate).
  split; [exact H|exact (lcmArray_least 4 (-6) [10] H)].
Defined.

(** X5.  An array of two or more elements with a 0 in it has [lcmArray] 0,
    however large the other elements are; and [lcmArray] of the empty
    array throws. *)
Theorem lcmArray_zero :
  lcmArray [] = None /\
  forall x y l, In 0 (x :: y :: l) -> lcmArray (x :: y :: l) = Some 0.
Proof.
  split; [reflexivity|]. intros x y l Hin.
  unfold lcmArray, reduce1. f_equal. destruct Hin as [Hx|Hin].
  - subst x. apply fold_left_lcm2_zero.
  - apply fold_left_lcm2_has_zero, Hin.
Qed.

Lemma lcmArray_zero_witness :
  In 0 [2 ^ 60 + 1; 2 ^ 61 + 3; 0; 7] /\
  lcmArray [2 ^ 60 + 1; 2 ^ 61 + 3; 0; 7] = Some 0.
Proof.
  assert (H : In 0 [2 ^ 60 + 1; 2 ^ 61 + 3; 0; 7]) by (simpl; tauto).
  split; [exact H|exact (proj2 lcmArray_zero _ _ _ H)].
Defined.

(** ** More on the rate limiter *)

Section RateLimiterMore.

Context (OFFICIAL_EMAIL : option jsstring).

(** X6.  The limiter fails open: when the client address cannot be read
    (no [req.ip] and no [req.connection]) the request is admitted and the
    map is left as it is.  Otherwise the key is never the empty string:
    an empty address falls through to the next source and at last to
    ['unknown']. *)
Theorem rateLimiter_fail_open (req : Request) :
  (client_key req = None <->
   nonempty (req_ip req) = false /\ req_connection req = None) /\
  (forall k, client_key req = Some k -> k <> []) /\
  (forall rateMap now,
     client_key req = None ->
     rateLimiter OFFICIAL_EMAIL rateMap req now = (rateMap, Next)).
Proof.
  split; [|split].
  - unfold client_key. destruct (req_ip req) as [[|c s]|];
      destruct (req_connection req) as [[[|c' s']|]|]; simpl;
      split; try discriminate; try (intros [? ?]; discriminate); auto.
  - intros k. unfold client_key.
    destruct (req_ip req) as [[|c s]|];
      destruct (req_connection req) as [[[|c' s']|]|]; simpl;
      intros H; try discriminate; injection H as <-; discriminate.
  - intros rateMap now H. unfold rateLimiter. rewrite H. reflexivity.
Qed.

(** Entries are never evicted and nothing else is touched: after a
    request the map has the keys it had plus the key of the request, and
    the entry of every other client is the one it was. *)
Lemma rateLimiter_keeps_entries rateMap req now :
  dom (rateLimiter OFFICIAL_EMAIL rateMap req now).1
  = dom rateMap ∪ (match client_key req with
                   | Some ip => {[ip]}
                   | None => ∅
                   end) /\
  (forall ip, client_key req <> Some ip ->
     (rateLimiter OFFICIAL_EMAIL rateMap req now).1 !! ip = rateMap !! ip).
Proof.
  split.
  - unfold rateLimiter. destruct (client_key req) as [ip|].
    + destruct (_ <? _); simpl; rewrite dom_insert_L; apply (comm_L (∪)).
    + simpl. rewrite (right_id_L ∅ (∪)). reflexivity.
  - intros ip. apply rateLimiter_other.
Qed.

Lemma serve_dom ip requests : forall rateMap,
  dom (serve OFFICIAL_EMAIL ip rateMap requests).2
  = dom rateMap ∪ keys_of requests.
Proof.
  induction requests as [|[req now] rest IH]; intros rateMap.
  - simpl. rewrite (right_id_L ∅ (∪)). reflexivity.
  - cbn [serve keys_of].
    pose proof (proj1 (rateLimiter_keeps_entries rateMap req now)) as Hd.
    destruct (rateLimiter OFFICIAL_EMAIL rateMap req now) as [rateMap' o].
    specialize (IH rateMap').
    destruct (serve OFFICIAL_EMAIL ip rateMap' rest) as [os final].
    cbn [fst snd] in *. rewrite IH, Hd.
    destruct (client_key req).
    + rewrite (assoc_L (∪)). reflexivity.
    + rewrite (right_id_L ∅ (∪)). reflexivity.
Qed.

(** What a request does to its client depends on the entry of that
    client alone. *)
Lemma rateLimiter_local m1 m2 req now ip :
  client_key req = Some ip -> m1 !! ip = m2 !! ip ->
  (rateLimiter OFFICIAL_EMAIL m1 req now).2
  = (rateLimiter OFFICIAL_EMAIL m2 req now).2 /\
  (rateLimiter OFFICIAL_EMAIL m1 req now).1 !! ip
  = (rateLimiter OFFICIAL_EMAIL m2 req now).1 !! ip.
Proof.
  intros Hk Hm. unfold rateLimiter. rewrite Hk, Hm.
  destruct (_ <? _); cbn [fst snd]; rewrite !lookup_insert_eq; auto.
Qed.

Lemma serve_isolated ip requests : forall m1 m2,
  m1 !! ip = m2 !! ip ->
  (serve OFFICIAL_EMAIL ip m1 requests).1
  = (serve OFFICIAL_EMAIL ip m2 (own ip requests)).1 /\
  (serve OFFICIAL_EMAIL ip m1 requests).2 !! ip
  = (serve OFFICIAL_EMAIL ip m2 (own ip requests)).2 !! ip.
Proof.
  induction requests as [|[req now] rest IH]; intros m1 m2 Hm.
  - simpl. auto.
  - unfold own. cbn [List.filter fst]. fold (own ip rest).
    destruct (bool_decide_reflect (client_key req = Some ip)) as [Hk|Hk].
    + cbn [serve].
      destruct (rateLimiter_local m1 m2 req now ip Hk Hm) as [Ho Hl].
      destruct (rateLimiter OFFICIAL_EMAIL m1 req now) as [m1' o1].
      destruct (rateLimiter OFFICIAL_EMAIL m2 req now) as [m2' o2].
      cbn [fst snd] in Ho, Hl. subst o2.
      destruct (IH m1' m2' Hl) as [IH1 IH2].
      destruct (serve OFFICIAL_EMAIL ip m1' rest) as [os1 f1].
      destruct (serve OFFICIAL_EMAIL ip m2' (own ip rest)) as [os2 f2].
      cbn [fst snd] in *. rewrite bool_decide_eq_true_2 by exact Hk.
      cbn [fst snd]. subst os2. auto.
    + cbn [serve].
      pose proof (rateLimiter_other OFFICIAL_EMAIL m1 req now ip Hk) as Ho.
      destruct (rateLimiter OFFICIAL_EMAIL m1 req now) as [m1' o1].
      cbn [fst] in Ho.
      destruct (IH m1' m2 ltac:(congruence)) as [IH1 IH2].
      destruct (serve OFFICIAL_EMAIL ip m1' rest) as [os1 f1].
      cbn [fst snd] in *. rewrite bool_decide_eq_false_2 by exact Hk.
      auto.
Qed.

(** X7.  Clients are limited independently: the outcomes of the requests of
    a client, and its entry at the end, are the same whether the requests
    of the other clients are served in between or not; and serving never
    drops an entry, it adds the keys of the clients served. *)
Theorem serve_clients_independent ip rateMap requests :
  (serve OFFICIAL_EMAIL ip rateMap requests).1
  = (serve OFFICIAL_EMAIL ip rateMap (own ip requests)).1 /\
  (serve OFFICIAL_EMAIL ip rateMap requests).2 !! ip
  = (serve OFFICIAL_EMAIL ip rateMap (own ip requests)).2 !! ip /\
  dom (serve OFFICIAL_EMAIL ip rateMap requests).2
  = dom rateMap ∪ keys_of requests.
Proof.
  destruct (serve_isolated ip requests rateMap rateMap eq_refl) as [H1 H2].
  split; [exact H1|]. split; [exact H2|apply serve_dom].
Qed.

End RateLimiterMore.

Lemma rateLimiter_fail_open_witness :
  client_key {| req_ip := None; req_connection := None |} = None /\
  rateLimiter demo_email ∅ {| req_ip := None; req_connection := None |} 5
  = (∅, Next).
Proof.
  assert (H : client_key {| req_ip := None; req_connection := None |} = None)
    by reflexivity.
  split; [exact H|].
  exact (proj2 (proj2 (rateLimiter_fail_open demo_email
                         {| req_ip := None; req_connection := None |}))
           ∅ 5 H).
Defined.

(** ** More on the dispatcher *)

Section DispatcherMore.

Context (OFFICIAL_EMAIL GEMINI_API_KEY : option jsstring)
        (JSON_parse : jsstring -> option JSValue)
        (JSON_stringify : JSValue -> jsstring)
        (generateContent : jsstring -> option jsstring).

Local Abbreviation handler :=
  (bfhl OFFICIAL_EMAIL GEMINI_API_KEY JSON_parse JSON_stringify
        generateContent).

Lemma sendError_uniform st msg :
  In st [400; 502; 503] -> msg <> [] -> nonempty OFFICIAL_EMAIL = true ->
  uniform OFFICIAL_EMAIL (sendError OFFICIAL_EMAIL st msg).
Proof.
  intros Hst Hmsg Hc. right. cbn [sendError status body is_success data error official_email].
  split; [simpl in *; tauto|]. split; [reflexivity|]. split; [reflexivity|].
  split; [exists msg; auto|]. split; [reflexivity|].
  rewrite Hc. split; [|discriminate]. intros ->. simpl in Hst.
  decompose [or] Hst; discriminate || contradiction.
Qed.

Lemma sendData_uniform d :
  nonempty OFFICIAL_EMAIL = true ->
  uniform OFFICIAL_EMAIL (sendData OFFICIAL_EMAIL d).
Proof.
  intros Hc. left. cbn. repeat split; auto.
Qed.

(** X8.  Every answer of [POST /bfhl] has the uniform shape: either status
    200 with [is_success] true, data and no error, or status 400, 500,
    502 or 503 with [is_success] false, a non-empty message and no data;
    and the status is 500 exactly when [OFFICIAL_EMAIL] is not set.  The
    same holds for [GET /health], which answers 200 without data when the
    service is configured. *)
Theorem bfhl_uniform_envelope :
  (forall body r, handler body = Some r -> uniform OFFICIAL_EMAIL r) /\
  (nonempty OFFICIAL_EMAIL = false ->
   forall body,
     handler body
     = Some (sendError OFFICIAL_EMAIL 500
               (js "Server not configured: OFFICIAL_EMAIL missing")) /\
     health OFFICIAL_EMAIL
     = sendError OFFICIAL_EMAIL 500
         (js "Server not configured: OFFICIAL_EMAIL missing")) /\
  (status (health OFFICIAL_EMAIL) = 200 <-> nonempty OFFICIAL_EMAIL = true).
Proof.
  split; [|split].
  - intros body r H.
    destruct (nonempty OFFICIAL_EMAIL) eqn:Hc.
    + unfold bfhl in H. rewrite Hc in H. cbn [negb] in H.
      repeat match type of H with
             | context [match ?x with _ => _ end] => destruct x
             end;
        try discriminate H; injection H as <-;
        first [ apply sendData_uniform; exact Hc
              | apply sendError_uniform;
                [simpl; tauto|vm_compute; discriminate|exact Hc] ].
    + unfold bfhl in H. rewrite Hc in H. cbn [negb] in H. injection H as <-.
      right. cbn. rewrite Hc.
      split; [tauto|]. split; [reflexivity|]. split; [reflexivity|].
      split; [eexists; split; [reflexivity|vm_compute; discriminate]|].
      split; [unfold email_or_null; rewrite Hc; reflexivity|tauto].
  - intros Hc body. unfold bfhl, health. rewrite Hc. auto.
  - unfold health. destruct (nonempty OFFICIAL_EMAIL); simpl; split;
      congruence.
Qed.

Lemma integers_none items v :
  In v items -> (forall z, v <> number z) -> integers items = None.
Proof.
  induction items as [|w items IH]; intros Hin Hv; [destruct Hin|].
  simpl. destruct Hin as [->|Hin].
  - destruct v as [| |[z|]| | |]; try reflexivity.
    exfalso. apply (Hv z). reflexivity.
  - rewrite (IH Hin Hv).
    destruct w as [| |[z|]| | |]; reflexivity.
Qed.

Section Configured.

Hypothesis configured : nonempty OFFICIAL_EMAIL = true.

Local Abbreviation ok := (sendData OFFICIAL_EMAIL).
Local Abbreviation bad := (sendError OFFICIAL_EMAIL).
Local Abbreviation on_fibonacci :=
  (bfhl_key_fibonacci OFFICIAL_EMAIL GEMINI_API_KEY JSON_parse JSON_stringify
     generateContent configured).
Local Abbreviation on_prime :=
  (bfhl_key_prime OFFICIAL_EMAIL GEMINI_API_KEY JSON_parse JSON_stringify
     generateContent configured).
Local Abbreviation on_hcf :=
  (bfhl_key_hcf OFFICIAL_EMAIL GEMINI_API_KEY JSON_parse JSON_stringify
     generateContent configured).
Local Abbreviation on_lcm :=
  (bfhl_key_lcm OFFICIAL_EMAIL GEMINI_API_KEY JSON_parse JSON_stringify
     generateContent configured).
Local Abbreviation on_AI :=
  (bfhl_key_AI OFFICIAL_EMAIL GEMINI_API_KEY JSON_parse JSON_stringify
     generateContent configured).

(** X9.  The [fibonacci] route: an integer n in 1..1000 is answered with an
    array of exactly n numbers that starts with 0; any other value (not
    a number, a fraction, an integer out of range) is answered with 400
    and the range message. *)
Theorem bfhl_fibonacci_route :
  (forall n, 1 <= n <= 1000 ->
     exists res,
       handler (Some (JObj [(js "fibonacci", number n)]))
       = Some (ok (JArr (map number res))) /\
       Z.of_nat (length res) = n /\ nth 0 res 0 = 0) /\
  (forall v, (forall n, v = number n -> n < 1 \/ 1000 < n) ->
     handler (Some (JObj [(js "fibonacci", v)]))
     = Some (bad 400 (js "fibonacci must be an integer in range 1..1000"))).
Proof.
  split.
  - intros n Hn.
    destruct (fibSeries_any n ltac:(lia)) as (res & Hrun & Hlen & Hinv & Hone).
    assert (H0 : nth 0 res 0 = 0).
    { destruct (Z.eq_dec n 1) as [E|E]; [rewrite (Hone E); reflexivity|].
      apply Hinv. lia. }
    exists res. rewrite on_fibonacci. cbn [isInteger number].
    destruct (Z.leb_spec n 0); [lia|]. destruct (Z.ltb_spec 1000 n); [lia|].
    cbn [orb]. rewrite Hrun. auto.
  - intros v Hv. rewrite on_fibonacci.
    destruct v as [| |[n|]| | |]; try reflexivity.
    cbn [isInteger]. destruct (Hv n eq_refl).
    + destruct (Z.leb_spec n 0); [reflexivity|lia].
    + destruct (Z.ltb_spec 1000 n); [|lia]. rewrite orb_true_r. reflexivity.
Qed.

(** X10.  The [hcf] and [lcm] routes on two or more integers: the data of the
    answer is the greatest common divisor of the array, and, while it is
    at most 2^53, its least common multiple. *)
Theorem bfhl_hcf_lcm_route x y l :
  handler (Some (JObj [(js "hcf", JArr (map number (x :: y :: l)))]))
  = Some (ok (number (gcd_list (x :: y :: l)))) /\
  (lcm_list (x :: y :: l) <= 2 ^ 53 ->
   handler (Some (JObj [(js "lcm", JArr (map number (x :: y :: l)))]))
   = Some (ok (number (lcm_list (x :: y :: l))))).
Proof.
  split.
  - rewrite on_hcf.
    change (map number (x :: y :: l)) with (number x :: map number (y :: l)).
    cbv iota.
    change (number x :: map number (y :: l)) with (map number (x :: y :: l)).
    rewrite integers_numbers, gcdArray_two. reflexivity.
  - intros Hle. rewrite on_lcm.
    change (map number (x :: y :: l)) with (number x :: map number (y :: l)).
    cbv iota.
    change (number x :: map number (y :: l)) with (map number (x :: y :: l)).
    rewrite integers_numbers, (lcmArray_two _ _ _ Hle). reflexivity.
Qed.

(** X11.  An array with an element that is not an integer (a string, a
    fraction, null, a nested array, ...) is refused with 400 and the
    message of its key, wherever the element stands and whatever the
    other elements are. *)
Theorem bfhl_non_integer_element items v :
  In v items -> (forall z, v <> number z) ->
  handler (Some (JObj [(js "prime", JArr items)]))
  = Some (bad 400 (js "prime array must contain integers")) /\
  handler (Some (JObj [(js "hcf", JArr items)]))
  = Some (bad 400 (js "hcf array must contain integers")) /\
  handler (Some (JObj [(js "lcm", JArr items)]))
  = Some (bad 400 (js "lcm array must contain integers")).
Proof.
  intros Hin Hv. pose proof (integers_none items v Hin Hv) as Hnone.
  rewrite on_prime, on_hcf, on_lcm.
  destruct items as [|w items]; [destruct Hin|].
  rewrite Hnone. auto.
Qed.

(** X13.  The numeric routes always answer: on every body other than
    an [AI] request the handler returns a response, the loops of
    [fibSeries] and [isPrimeNum] finishing within their bounds, as long
    as the integers of a [prime] array are Numbers. *)
Theorem bfhl_answers b :
  (forall v, b <> Some (JObj [(js "AI", v)])) ->
  (forall items z, b = Some (JObj [(js "prime", JArr items)]) ->
     In (number z) items -> JSNum.representable z) ->
  exists r, handler b = Some r.
Proof.
  intros Hai Hrep.
  destruct (bfhl_validates OFFICIAL_EMAIL GEMINI_API_KEY JSON_parse
              JSON_stringify generateContent configured b)
    as [Hv|(msg & _ & H)]; [|eexists; exact H].
  inversion Hv as [n Hn E|x nums E|x nums E|x nums E|q Hq E]; subst b.
  - destruct (fibSeries_any n ltac:(lia)) as (res & Hrun & _).
    rewrite on_fibonacci. cbn [isInteger number].
    destruct (Z.leb_spec n 0); [lia|]. destruct (Z.ltb_spec 1000 n); [lia|].
    cbn [orb]. rewrite Hrun. eexists. reflexivity.
  - destruct (filter_primes_spec (x :: nums)) as (ps & Hps & _).
    { apply List.Forall_forall. intros z Hz. apply (Hrep _ z eq_refl).
      apply (in_map number) in Hz. exact Hz. }
    rewrite on_prime.
    change (map number (x :: nums)) with (number x :: map number nums).
    cbv iota.
    change (number x :: map number nums) with (map number (x :: nums)).
    rewrite integers_numbers, Hps. eexists. reflexivity.
  - rewrite on_lcm.
    change (map number (x :: nums)) with (number x :: map number nums).
    cbv iota.
    change (number x :: map number nums) with (map number (x :: nums)).
    rewrite integers_numbers. eexists. reflexivity.
  - rewrite on_hcf.
    change (map number (x :: nums)) with (number x :: map number nums).
    cbv iota.
    change (number x :: map number nums) with (map number (x :: nums)).
    rewrite integers_numbers. eexists. reflexivity.
  - exfalso. apply (Hai (JStr q)). reflexivity.
Qed.

(** X14.  The [AI] route.  A value that is not a string, or a string of
    white space only, is refused with 400; without [GEMINI_API_KEY] the
    answer is 503; otherwise the model is asked the one prompt
    ["Answer Question: " + question]: if it throws the answer is 502
    "AI service error", if it returns the empty text 502 "AI service
    returned no answer", and any other text is trimmed, sanitized and
    returned with 200, even when nothing is left of it. *)
Theorem bfhl_AI_route :
  (forall v, (forall q, v = JStr q -> trim q = []) ->
     handler (Some (JObj [(js "AI", v)]))
     = Some (bad 400 (js "AI must be a non-empty string"))) /\
  (forall question, trim question <> [] ->
     handler (Some (JObj [(js "AI", JStr question)]))
     = if nonempty GEMINI_API_KEY then
         match generateContent (js "Answer Question: " ++ question) with
         | None => Some (bad 502 (js "AI service error"))
         | Some [] => Some (bad 502 (js "AI service returned no answer"))
         | Some content =>
             Some (ok (JStr (cleanAIContent JSON_parse JSON_stringify
                               (trim content))))
         end
       else Some (bad 503 (js "AI service not configured"))).
Proof.
  split.
  - intros v Hv. rewrite on_AI. destruct v as [| | |q| |]; try reflexivity.
    rewrite (Hv q eq_refl). reflexivity.
  - intros question Hq. rewrite on_AI.
    rewrite bool_decide_eq_false_2 by exact Hq.
    destruct (nonempty GEMINI_API_KEY); [|reflexivity]. cbn [negb].
    destruct (generateContent _) as [[|c content]|]; reflexivity.
Qed.

End Configured.

End DispatcherMore.

(** ** More on the sanitizer *)

Module SanitizerMore.
Import Regex.

Lemma rep_needs {A : Type} greedy p (k : cont A) (P : N -> Prop) min s prev cap a :
  (0 < min)%nat -> (forall c, p c = true -> P c) ->
  rep greedy p k min prev s cap = Some a ->
  exists prev' s' cap' pre,
    k prev' s' cap' = Some a /\ s = pre ++ s' /\ Exists P pre.
Proof.
  intros Hmin HP H. destruct min as [|m]; [lia|].
  destruct s as [|c s]; cbn [rep] in H.
  - destruct greedy; discriminate.
  - assert (Hm : (if p c then rep greedy p k m (Some c) s cap else None) = Some a).
    { cbn [Nat.pred] in H. destruct greedy.
      - destruct (if p c then _ else None); [exact H|discriminate].
      - exact H. }
    destruct (p c) eqn:Hc; [|discriminate].
    destruct (ReplaceFacts.rep_suffix _ _ _ _ _ _ _ _ Hm)
      as (prev' & s' & cap' & pre & Hk & ->).
    exists prev', s', cap', (c :: pre). split; [exact Hk|].
    split; [reflexivity|]. apply Exists_cons_hd, HP, Hc.
Qed.

Lemma run_needs {A : Type} (P : N -> Prop) r : forall prev s cap (k : cont A) a,
  needs r P ->
  run r prev s cap k = Some a ->
  exists prev' s' cap' pre,
    k prev' s' cap' = Some a /\ s = pre ++ s' /\ Exists P pre.
Proof.
  induction r as [p|greedy min p|r1 IH1 r2 IH2|r IH|];
    intros prev s cap k a Hn H; cbn [run needs] in *.
  - destruct s as [|c s]; [discriminate|].
    destruct (p c) eqn:Hc; [|discriminate].
    exists (Some c), s, cap, [c]. split; [exact H|]. split; [reflexivity|].
    apply Exists_cons_hd, Hn, Hc.
  - destruct Hn as [Hmin HP]. eapply rep_needs; eassumption.
  - destruct Hn as [Hn|Hn].
    + destruct (IH1 _ _ _ _ _ Hn H) as (prev1 & s1 & cap1 & pre1 & H1 & -> & Hex).
      destruct (ReplaceFacts.run_suffix _ _ _ _ _ _ H1)
        as (prev2 & s2 & cap2 & pre2 & H2 & ->).
      exists prev2, s2, cap2, (pre1 ++ pre2). rewrite <- app_assoc.
      split; [exact H2|]. split; [reflexivity|].
      apply Exists_app. left. exact Hex.
    + destruct (ReplaceFacts.run_suffix _ _ _ _ _ _ H)
        as (prev1 & s1 & cap1 & pre1 & H1 & ->).
      destruct (IH2 _ _ _ _ _ Hn H1) as (prev2 & s2 & cap2 & pre2 & H2 & -> & Hex).
      exists prev2, s2, cap2, (pre1 ++ pre2). rewrite <- app_assoc.
      split; [exact H2|]. split; [reflexivity|].
      apply Exists_app. right. exact Hex.
  - destruct (IH _ _ _ _ _ Hn H) as (prev1 & s1 & cap1 & pre1 & H1 & -> & Hex).
    eexists _, _, _, pre1. split; [exact H1|]. split; [reflexivity|exact Hex].
  - destruct Hn.
Qed.

(** A text without a code unit that [r] needs has no match of [r]. *)
Lemma search_needs (P : N -> Prop) r s : forall prev,
  needs r P -> (forall c, In c s -> ~ P c) -> search r prev s = None.
Proof.
  intros prev Hn Hs. destruct (search r prev s) as [f|] eqn:E; [|reflexivity].
  exfalso. revert prev f E. induction s as [|c s IH]; intros prev f E.
  - cbn [search] in E. unfold match_here in E.
    destruct (run r prev [] None _) as [f'|] eqn:Er; [|discriminate].
    destruct (run_needs P _ _ _ _ _ _ Hn Er) as (? & s' & ? & pre & _ & Es & Hex).
    destruct pre; [inversion Hex|discriminate].
  - cbn [search] in E. unfold match_here in E.
    destruct (run r prev (c :: s) None _) as [f'|] eqn:Er.
    + destruct (run_needs P _ _ _ _ _ _ Hn Er) as (? & s' & ? & pre & _ & Es & Hex).
      apply List.Exists_exists in Hex. destruct Hex as (u & Hx & HPx).
      apply (Hs u); [|exact HPx]. rewrite Es. apply in_or_app. left. exact Hx.
    + destruct (search r (Some c) s) as [f'|] eqn:E'; [|discriminate].
      apply (IH ltac:(intros x Hx; apply Hs; right; exact Hx) _ _ E').
Qed.

Lemma replace_all_needs (P : N -> Prop) r rp s :
  needs r P -> (forall c, In c s -> ~ P c) -> replace_all r rp s = s.
Proof.
  intros Hn Hs. unfold replace_all. cbn [replace_from].
  rewrite (search_needs P r s None Hn Hs). reflexivity.
Qed.

Ltac chr_case :=
  let c := fresh "c" in let H := fresh "H" in
  intros c H; apply N.eqb_eq in H; subst c; reflexivity.

Ltac solve_needs :=
  first [ solve [chr_case]
        | solve [split; [lia|chr_case]]
        | solve [left; solve_needs]
        | solve [right; solve_needs] ].

Lemma needs_all :
  needs re_fence markup /\ needs re_json markup /\ needs re_email markup /\
  needs re_bold markup /\ needs re_bold_underscore markup /\
  needs re_italic markup /\ needs re_code markup /\ needs re_quot markup /\
  needs re_escaped_n markup /\ needs re_backslashes markup /\
  needs re_crlf markup /\ needs re_blank_lines markup.
Proof.
  unfold markup. repeat split; cbn -[N.eqb is_markup]; solve_needs.
Qed.

Lemma trim_start_head s c rest :
  trim_start s = c :: rest -> is_space c = false.
Proof.
  induction s as [|d s IH]; [discriminate|]. cbn [trim_start].
  destruct (is_space d) eqn:Ed; [exact IH|].
  intros E. injection E as <- _. exact Ed.
Qed.

Lemma trim_start_suffix s : exists sp, s = sp ++ trim_start s.
Proof.
  induction s as [|d s [sp IH]]; [exists []; reflexivity|].
  cbn [trim_start]. destruct (is_space d).
  - exists (d :: sp). simpl. rewrite <- IH. reflexivity.
  - exists []. reflexivity.
Qed.

(** What [trim] returns neither starts nor ends with white space, and
    has no code unit of its own. *)
Lemma trim_ends s :
  (forall c rest, trim s = c :: rest -> is_space c = false) /\
  (forall front c, trim s = front ++ [c] -> is_space c = false) /\
  (forall c, In c (trim s) -> In c s).
Proof.
  unfold trim. set (t := trim_start s).
  destruct (trim_start_suffix (rev t)) as [sp Hsp].
  set (u := trim_start (rev t)) in *.
  assert (Ht : t = rev u ++ rev sp).
  { rewrite <- (rev_involutive t), Hsp, rev_app_distr. reflexivity. }
  split; [|split].
  - intros c rest E. rewrite E in Ht.
    apply (trim_start_head s c (rest ++ rev sp)). fold t. rewrite Ht.
    reflexivity.
  - intros front c E.
    apply (trim_start_head (rev t) c (rev front)). fold u.
    rewrite <- (rev_involutive u), E, rev_app_distr. reflexivity.
  - intros c Hc.
    destruct (trim_start_suffix s) as [sp' Hs]. fold t in Hs.
    rewrite Hs, Ht. apply in_or_app. right. apply in_or_app. left. exact Hc.
Qed.

(** A replacement by a literal brings in no code unit but those of the
    literal. *)
Lemma replace_from_incl r t c fuel : forall prev s,
  In c (replace_from fuel r (Lit t) prev s) -> In c s \/ In c t.
Proof.
  induction fuel as [|fuel IH]; intros prev s H; [left; exact H|].
  cbn [replace_from] in H.
  destruct (search r prev s) as [f|] eqn:E; [|left; exact H].
  apply ReplaceFacts.search_splits in E.
  assert (Hb : forall x, In x (before f) -> In x s).
  { intros x Hx. rewrite E. apply in_or_app. left. exact Hx. }
  assert (Ha : forall x, In x (after f) -> In x s).
  { intros x Hx. rewrite E. apply in_or_app. right. apply in_or_app. right.
    exact Hx. }
  apply in_app_or in H. destruct H as [H|H]; [left; apply Hb, H|].
  apply in_app_or in H. destruct H as [H|H]; [right; exact H|].
  destruct (matched f) as [|m ms]; destruct (after f) as [|d rest].
  - destruct H.
  - destruct H as [<-|H]; [left; apply Ha; left; reflexivity|].
    destruct (IH _ _ H) as [H'|H']; [left; apply Ha; right; exact H'|right; exact H'].
  - destruct (IH _ _ H) as [H'|H']; [destruct H'|right; exact H'].
  - destruct (IH _ _ H) as [H'|H']; [left; apply Ha; exact H'|right; exact H'].
Qed.

Lemma rep_min0_some {A : Type} p (k : cont A) s : forall prev cap,
  (forall prev' s' cap', k prev' s' cap' <> None) ->
  rep true p k 0 prev s cap <> None.
Proof.
  induction s as [|c s IH]; intros prev cap Hk; cbn [rep].
  - destruct (k prev [] cap) eqn:E; [discriminate|]. exfalso. eapply Hk, E.
  - destruct (if p c then rep true p k (Nat.pred 0) (Some c) s cap else None);
      [discriminate|].
    destruct (k prev (c :: s) cap) eqn:E; [discriminate|]. exfalso. eapply Hk, E.
Qed.

(** [/c+/] matches at a position exactly when a [c] stands there, and
    then it matches at least that one. *)
Lemma match_here_plus p prev s :
  match match_here (Rep true 1 p) prev s with
  | Some f => matched f <> []
  | None => match s with [] => True | c :: _ => p c = false end
  end.
Proof.
  unfold match_here. cbn [run]. destruct s as [|c s]; [reflexivity|].
  cbn [rep Nat.pred]. destruct (p c) eqn:Hc; [|exact eq_refl].
  match goal with
  | |- context [rep true p ?k 0 (Some c) s None] =>
      destruct (rep true p k 0 (Some c) s None) as [f|] eqn:E
  end.
  - destruct (ReplaceFacts.rep_suffix _ _ _ _ _ _ _ _ E)
      as (prev' & s' & cap' & pre & Hk & Es).
    injection Hk as <-. cbn [matched]. rewrite Es. simpl length.
    rewrite length_app.
    replace (S (length pre + length s') - length s')%nat
      with (S (length pre)) by lia.
    discriminate.
  - exfalso. revert E. apply rep_min0_some. discriminate.
Qed.

Lemma search_plus p s : forall prev,
  match search (Rep true 1 p) prev s with
  | Some f => (forall c, In c (before f) -> p c = false) /\ matched f <> []
  | None => forall c, In c s -> p c = false
  end.
Proof.
  induction s as [|d s IH]; intros prev; cbn [search].
  - pose proof (match_here_plus p prev []) as H.
    destruct (match_here (Rep true 1 p) prev []) as [f|] eqn:E.
    + apply ReplaceFacts.match_here_splits in E as [-> _].
      split; [intros c []|exact H].
    + intros c [].
  - pose proof (match_here_plus p prev (d :: s)) as H.
    destruct (match_here (Rep true 1 p) prev (d :: s)) as [f|] eqn:E.
    + apply ReplaceFacts.match_here_splits in E as [-> _].
      split; [intros c []|exact H].
    + specialize (IH (Some d)).
      destruct (search (Rep true 1 p) (Some d) s) as [f|].
      * cbn [before matched]. destruct IH as [IHb IHm].
        split; [|exact IHm]. intros c [<-|Hc]; [exact H|apply IHb, Hc].
      * intros c [<-|Hc]; [exact H|apply IH, Hc].
Qed.

(** Deleting every run of [c]s leaves no [c]. *)
Lemma replace_plus_removes p fuel : forall prev s,
  (length s < fuel)%nat ->
  forall c, In c (replace_from fuel (Rep true 1 p) (Lit []) prev s) ->
            p c = false.
Proof.
  induction fuel as [|fuel IH]; intros prev s Hlen c H; [lia|].
  cbn [replace_from] in H.
  pose proof (search_plus p s prev) as Hs.
  destruct (search (Rep true 1 p) prev s) as [f|] eqn:E; [|apply Hs, H].
  destruct Hs as [Hb Hm].
  apply ReplaceFacts.search_splits in E.
  assert (Hl : length s
               = (length (before f) + length (matched f) + length (after f))%nat).
  { rewrite E at 1. rewrite !length_app. lia. }
  apply in_app_or in H. destruct H as [H|H]; [apply Hb, H|].
  cbn [expand app] in H.
  destruct (matched f) as [|m ms]; [congruence|].
  apply (IH (after_prev f) (after f)); [simpl in Hl; lia|exact H].
Qed.

Section Sanitizer.

Context (JSON_parse : jsstring -> option JSValue)
        (JSON_stringify : JSValue -> jsstring).

Local Abbreviation clean := (cleanAIContent JSON_parse JSON_stringify).

Lemma clean_steps raw :
  raw <> [] ->
  clean raw = polish (extractJson JSON_parse JSON_stringify
                        (replace_all re_fence (Lit []) raw)).
Proof. destruct raw; [congruence|reflexivity]. Qed.

Lemma extractJson_plain s :
  (forall c, In c s -> ~ markup c) ->
  extractJson JSON_parse JSON_stringify s = s.
Proof.
  intros Hs. unfold extractJson, str_match.
  rewrite (search_needs markup re_json s None (proj1 (proj2 needs_all)) Hs).
  reflexivity.
Qed.

Lemma polish_plain s :
  (forall c, In c s -> ~ markup c) -> polish s = trim s.
Proof.
  intros Hs.
  destruct needs_all as (_ & _ & N3 & N4 & N5 & N6 & N7 & N8 & N9 & N10 & N11 & N12).
  unfold polish. cbv zeta.
  rewrite (replace_all_needs markup re_email (Lit []) s N3 Hs).
  rewrite (replace_all_needs markup re_bold Dollar1 s N4 Hs).
  rewrite (replace_all_needs markup re_bold_underscore Dollar1 s N5 Hs).
  rewrite (replace_all_needs markup re_italic Dollar1 s N6 Hs).
  rewrite (replace_all_needs markup re_code Dollar1 s N7 Hs).
  rewrite (replace_all_needs markup re_quot (Lit [dquote]) s N8 Hs).
  rewrite (replace_all_needs markup re_escaped_n (Lit [LF]) s N9 Hs).
  rewrite (replace_all_needs markup re_backslashes (Lit []) s N10 Hs).
  rewrite (replace_all_needs markup re_crlf (Lit [LF]) s N11 Hs).
  rewrite (replace_all_needs markup re_blank_lines (Lit [LF; LF]) s N12 Hs).
  reflexivity.
Qed.

(** X15.  Plain text goes through untouched: a text without backtick, brace,
    at-sign, star, underscore, ampersand, backslash, carriage return or
    line feed comes out as it went in, trimmed; [JSON.parse] is never
    consulted. *)
Theorem cleanAIContent_plain_text raw :
  (forall c, In c raw -> is_markup c = false) ->
  clean raw = trim raw.
Proof.
  intros Hplain.
  assert (Hs : forall c, In c raw -> ~ markup c).
  { intros c Hc. unfold markup. rewrite (Hplain c Hc). discriminate. }
  destruct raw as [|c0 raw0] eqn:Eraw; [reflexivity|]. rewrite <- Eraw in *.
  assert (Hne : raw <> []) by (rewrite Eraw; discriminate).
  rewrite (clean_steps raw Hne).
  rewrite (replace_all_needs markup re_fence (Lit []) raw (proj1 needs_all) Hs).
  rewrite (extractJson_plain raw Hs).
  apply polish_plain, Hs.
Qed.

Lemma no_backslash_after t :
  ~ In backslash
      (trim (replace_all re_blank_lines (Lit [LF; LF])
               (replace_all re_crlf (Lit [LF])
                  (replace_all re_backslashes (Lit []) t)))).
Proof.
  intros Hbs. apply trim_ends in Hbs.
  apply replace_from_incl in Hbs.
  destruct Hbs as [Hbs|[Hbs|[Hbs|[]]]]; try discriminate Hbs.
  apply replace_from_incl in Hbs.
  destruct Hbs as [Hbs|[Hbs|[]]]; try discriminate Hbs.
  pose proof (replace_plus_removes (N.eqb backslash) (S (length t)) None t
                ltac:(lia) backslash Hbs) as H.
  rewrite N.eqb_refl in H. discriminate H.
Qed.

Lemma polish_last_steps s :
  exists t,
    polish s
    = trim (replace_all re_blank_lines (Lit [LF; LF])
              (replace_all re_crlf (Lit [LF])
                 (replace_all re_backslashes (Lit []) t))).
Proof. eexists. reflexivity. Qed.

(** X16.  What the sanitizer returns is trimmed and free of backslashes: it
    neither starts nor ends with white space, and no backslash of the
    input, or of a parsed JSON value, survives. *)
Theorem cleanAIContent_output raw :
  ~ In backslash (clean raw) /\
  (forall c rest, clean raw = c :: rest -> is_space c = false) /\
  (forall front c, clean raw = front ++ [c] -> is_space c = false).
Proof.
  destruct raw as [|c0 raw0] eqn:Eraw.
  - split; [intros []|]. split; [discriminate|].
    intros front c E. destruct front; discriminate.
  - rewrite <- Eraw. rewrite (clean_steps raw) by (rewrite Eraw; discriminate).
    destruct (polish_last_steps
                (extractJson JSON_parse JSON_stringify
                   (replace_all re_fence (Lit []) raw))) as [t ->].
    split; [apply no_backslash_after|].
    split; apply trim_ends.
Qed.

End Sanitizer.

End SanitizerMore.

(** ** The routes and the platform *)

Section Routes.

Context (OFFICIAL_EMAIL : option jsstring).

Lemma keys_AI v :
  Object_keys v = [js "AI"] -> exists x, v = JObj [(js "AI", x)].
Proof.
  destruct v as [| | | |items|props]; try discriminate.
  - destruct items as [|i [|i2 rest]]; discriminate.
  - destruct props as [|[k x] [|p rest]]; try discriminate.
    simpl. intros E. injection E as ->. exists x. reflexivity.
Qed.

(** X17.  Only the [AI] route looks at the AI credential, the model or the
    JSON built-ins: on every body that is not a one-key object with key
    [AI] the answer is the same whatever they are. *)
Theorem bfhl_numeric_routes_local K1 K2 P1 P2 S1 S2 G1 G2 body :
  (forall v, body <> Some (JObj [(js "AI", v)])) ->
  bfhl OFFICIAL_EMAIL K1 P1 S1 G1 body = bfhl OFFICIAL_EMAIL K2 P2 S2 G2 body.
Proof.
  intros Hbody. unfold bfhl.
  destruct (negb (nonempty OFFICIAL_EMAIL)); [reflexivity|].
  destruct body as [v|]; [|reflexivity].
  destruct (negb (truthy v) || negb (typeof_object v)); [reflexivity|].
  destruct (Object_keys v) as [|key [|k2 rest]] eqn:Ek; try reflexivity.
  destruct (negb (includes allowedKeys key)); [reflexivity|].
  destruct (str_eqb key (js "fibonacci")); [reflexivity|].
  destruct (str_eqb key (js "prime")); [reflexivity|].
  destruct (str_eqb key (js "hcf")); [reflexivity|].
  destruct (str_eqb key (js "lcm")); [reflexivity|].
  destruct (str_eqb key (js "AI")) eqn:Eai; [|reflexivity].
  exfalso. apply bool_decide_eq_true in Eai. subst key.
  destruct (keys_AI v Ek) as [x ->]. apply (Hbody x). reflexivity.
Qed.

End Routes.

Lemma bfhl_numeric_routes_local_witness :
  (forall v, Some (JObj [(js "hcf", JArr [number 6; number 4])])
             <> Some (JObj [(js "AI", v)])) /\
  demo_handler (Some (JObj [(js "hcf", JArr [number 6; number 4])]))
  = bfhl demo_email (Some (js "key")) (fun _ => None) (fun _ => js "x")
      (fun _ => Some (js "y"))
      (Some (JObj [(js "hcf", JArr [number 6; number 4])])).
Proof.
  assert (H : forall v, Some (JObj [(js "hcf", JArr [number 6; number 4])])
                        <> Some (JObj [(js "AI", v)]))
    by (intros v E; discriminate E).
  split; [exact H|].
  exact (bfhl_numeric_routes_local demo_email _ _ _ _ _ _ _ _ _ H).
Defined.

(** ** Runs on concrete inputs *)

Lemma gcd_greatest_witness :
  (3 | 12) /\ (3 | -18) /\ (3 | gcd 12 (-18)).
Proof.
  assert (H1 : (3 | 12)) by (exists 4; reflexivity).
  assert (H2 : (3 | -18)) by (exists (-6); reflexivity).
  split; [exact H1|]. split; [exact H2|].
  exact (proj1 (proj2 (proj2 (proj2 (gcd_greatest 12 (-18))))) 3 H1 H2).
Defined.

Lemma gcdArray_greatest_witness :
  (forall z, In z [12; -18; 30] -> (3 | z)) /\
  exists g, gcdArray [12; -18; 30] = Some g /\ (3 | g).
Proof.
  assert (H : forall z, In z [12; -18; 30] -> (3 | z)).
  { intros z [<-|[<-|[<-|[]]]]; [exists 4|exists (-6)|exists 10]; reflexivity. }
  split; [exact H|].
  destruct (proj2 gcdArray_greatest 12 (-18) [30]) as (g & Hg & _ & Hd & _).
  exists g. split; [exact Hg|exact (Hd 3 H)].
Defined.

Lemma bfhl_uniform_envelope_witness :
  demo_handler (Some (JObj [(js "hcf", JArr [number (-4)])]))
  = Some (sendData demo_email (number (-4))) /\
  uniform demo_email (sendData demo_email (number (-4))).
Proof.
  assert (H : demo_handler (Some (JObj [(js "hcf", JArr [number (-4)])]))
              = Some (sendData demo_email (number (-4)))) by reflexivity.
  split; [exact H|].
  exact (proj1 (bfhl_uniform_envelope demo_email None JSONText.parse
                  (fun _ => []) (fun _ => None)) _ _ H).
Defined.

Lemma bfhl_fibonacci_route_witness :
  nonempty demo_email = true /\ 1 <= 7 <= 1000 /\
  exists res,
    demo_handler (Some (JObj [(js "fibonacci", number 7)]))
    = Some (sendData demo_email (JArr (map number res))) /\
    Z.of_nat (length res) = 7 /\ nth 0 res 0 = 0.
Proof.
  assert (Hc : nonempty demo_email = true) by reflexivity.
  assert (Hn : 1 <= 7 <= 1000) by lia.
  split; [exact Hc|]. split; [exact Hn|].
  exact (proj1 (bfhl_fibonacci_route demo_email None JSONText.parse
                  (fun _ => []) (fun _ => None) Hc) 7 Hn).
Defined.

Lemma bfhl_hcf_lcm_route_witness :
  nonempty demo_email = true /\ lcm_list [4; 6; 10] <= 2 ^ 53 /\
  demo_handler (Some (JObj [(js "hcf", JArr (map number [4; 6; 10]))]))
  = Some (sendData demo_email (number (gcd_list [4; 6; 10]))) /\
  demo_handler (Some (JObj [(js "lcm", JArr (map number [4; 6; 10]))]))
  = Some (sendData demo_email (number (lcm_list [4; 6; 10]))).
Proof.
  assert (Hc : nonempty demo_email = true) by reflexivity.
  assert (Hl : lcm_list [4; 6; 10] <= 2 ^ 53) by (vm_compute; discriminate).
  destruct (bfhl_hcf_lcm_route demo_email None JSONText.parse
              (fun _ => []) (fun _ => None) Hc 4 6 [10]) as [H1 H2].
  split; [exact Hc|]. split; [exact Hl|]. split; [exact H1|exact (H2 Hl)].
Defined.

Lemma bfhl_non_integer_element_witness :
  nonempty demo_email = true /\
  In JNull [number 2; JNull] /\ (forall z, JNull <> number z) /\
  demo_handler (Some (JObj [(js "prime", JArr [number 2; JNull])]))
  = Some (sendError demo_email 400 (js "prime array must contain integers")).
Proof.
  assert (Hc : nonempty demo_email = true) by reflexivity.
  assert (Hin : In JNull [number 2; JNull]) by (right; left; reflexivity).
  assert (Hv : forall z, JNull <> number z) by (intros z; discriminate).
  split; [exact Hc|]. split; [exact Hin|]. split; [exact Hv|].
  exact (proj1 (bfhl_non_integer_element demo_email None JSONText.parse
                  (fun _ => []) (fun _ => None) Hc _ _ Hin Hv)).
Defined.

Lemma bfhl_answers_witness :
  nonempty demo_email = true /\
  (forall v, Some (JObj [(js "prime", JArr (map number [7; 8; 9]))])
             <> Some (JObj [(js "AI", v)])) /\
  (forall items z,
     Some (JObj [(js "prime", JArr (map number [7; 8; 9]))])
     = Some (JObj [(js "prime", JArr items)]) ->
     In (number z) items -> JSNum.representable z) /\
  exists r,
    demo_handler (Some (JObj [(js "prime", JArr (map number [7; 8; 9]))]))
    = Some r.
Proof.
  assert (Hc : nonempty demo_email = true) by reflexivity.
  assert (Hai : forall v,
            Some (JObj [(js "prime", JArr (map number [7; 8; 9]))])
            <> Some (JObj [(js "AI", v)])) by (intros v E; discriminate E).
  assert (Hrep : forall items z,
            Some (JObj [(js "prime", JArr (map number [7; 8; 9]))])
            = Some (JObj [(js "prime", JArr items)]) ->
            In (number z) items -> JSNum.representable z).
  { intros items z E Hin. injection E as <-.
    destruct Hin as [E|[E|[E|[]]]]; injection E as <-; reflexivity. }
  split; [exact Hc|]. split; [exact Hai|]. split; [exact Hrep|].
  exact (bfhl_answers demo_email None JSONText.parse (fun _ => [])
           (fun _ => None) Hc _ Hai Hrep).
Defined.

Lemma bfhl_AI_route_witness :
  nonempty demo_email = true /\ trim (js " capital of France? ") <> [] /\
  bfhl demo_email (Some (js "key")) JSONText.parse (fun _ => [])
    (fun _ => Some (js "**Paris** is the capital."))
    (Some (JObj [(js "AI", JStr (js " capital of France? "))]))
  = Some (sendData demo_email (JStr (js "Paris is the capital."))).
Proof.
  assert (Hc : nonempty demo_email = true) by reflexivity.
  assert (Hq : trim (js " capital of France? ") <> [])
    by (vm_compute; discriminate).
  split; [exact Hc|]. split; [exact Hq|].
  rewrite (proj2 (bfhl_AI_route demo_email (Some (js "key")) JSONText.parse
                    (fun _ => [])
                    (fun _ => Some (js "**Paris** is the capital.")) Hc)
             _ Hq).
  vm_compute. reflexivity.
Defined.

Lemma cleanAIContent_plain_text_witness :
  (forall c, In c (js " Paris is the capital. ") -> is_markup c = false) /\
  cleanAIContent JSONText.parse (fun _ => []) (js " Paris is the capital. ")
  = js "Paris is the capital.".
Proof.
  assert (H : forall c, In c (js " Paris is the capital. ") ->
                        is_markup c = false).
  { assert (Hb : forallb (fun c => negb (is_markup c))
                   (js " Paris is the capital. ") = true)
      by (vm_compute; reflexivity).
    rewrite forallb_forall in Hb. intros c Hc.
    apply negb_true_iff, Hb, Hc. }
  split; [exact H|].
  rewrite (SanitizerMore.cleanAIContent_plain_text JSONText.parse
             (fun _ => []) _ H).
  vm_compute. reflexivity.
Defined.

Lemma cleanAIContent_output_witness :
  cleanAIContent JSONText.parse (fun _ => []) (js " *ok* ") = js "ok" /\
  is_space 111 = false.
Proof.
  assert (H : cleanAIContent JSONText.parse (fun _ => []) (js " *ok* ")
              = js "ok") by (vm_compute; reflexivity).
  split; [exact H|].
  exact (proj1 (proj2 (SanitizerMore.cleanAIContent_output JSONText.parse
                         (fun _ => []) (js " *ok* ")))
           111%N [107%N] H).
Defined.
